(** * PhotoCards: layout, reconciliation, texture acquisition and spring step

    A shallow embedding of [src/components/christmas/PhotoCards.tsx].

    JavaScript numbers are idealised as real numbers: rounding, NaN and the
    infinities of IEEE doubles are outside the model.  [Math.random] is a
    sequence of samples read through a counter, so that the order and the
    number of draws of the source are kept.  The card store
    ([cardDataRef.current]) is a list that is passed explicitly; a texture
    completion reads the store that is current when it runs. *)

From Stdlib Require Import Reals Lra Lia List String ZArith Arith.
Import ListNotations.
Open Scope R_scope.

(** ** JavaScript values *)

Module Js.

(** [x || d] on numbers: [0] is the only falsy real. *)
Definition or_num (x d : R) : R := if Req_dec_T x 0 then d else x.

(** [e?.f || d] where [e] may be [undefined] and [f] is a number. *)
Definition opt_or_num {A : Type} (e : option A) (f : A -> R) (d : R) : R :=
  match e with
  | Some a => or_num (f a) d
  | None => d
  end.

(** [e?.f || d] where [f] holds an object (always truthy). *)
Definition opt_or_obj {A B : Type} (e : option A) (f : A -> B) (d : B) : B :=
  match e with
  | Some a => f a
  | None => d
  end.

(** [arr[i] = v] for an index inside the array; the source never writes
    outside (every write is guarded by a read of the same index). *)
Fixpoint set_nth {A : Type} (i : nat) (v : A) (l : list A) : list A :=
  match l, i with
  | [], _ => []
  | _ :: l', O => v :: l'
  | a :: l', S i' => a :: set_nth i' v l'
  end.

End Js.

(** ** The random source

    [rng k] is the value of the [k]-th call of [Math.random()]; the state of
    a computation is the number of calls made so far. *)

Definition Rand (A : Type) : Type := nat -> A * nat.

Definition ret {A : Type} (a : A) : Rand A := fun n => (a, n).

Definition bind {A B : Type} (m : Rand A) (k : A -> Rand B) : Rand B :=
  fun n => let '(a, n') := m n in k a n'.

Notation "x <- m ;; k" := (bind m (fun x => k))
  (at level 61, m at next level, right associativity).

Definition random (rng : nat -> R) : Rand R := fun n => (rng n, S n).

(** [arr.map((a, i) => f a i)] with the draws threaded from left to right;
    [i] is the index of the head of [l]. *)
Fixpoint mapiM {A B : Type} (f : A -> nat -> Rand B) (i : nat) (l : list A)
  : Rand (list B) :=
  match l with
  | [] => ret []
  | a :: l' =>
      b <- f a i ;;
      bs <- mapiM f (S i) l' ;;
      ret (b :: bs)
  end.

(** ** Vectors *)

(** [[number, number, number]] *)
Definition Triple : Type := (R * R * R)%type.

(** [THREE.Vector3] *)
Record Vector3 : Type := mkVector3 { x : R; y : R; z : R }.

Module Vec.
Definition ofTriple (p : Triple) : Vector3 :=
  let '(a, b, c) := p in mkVector3 a b c.
Definition clone (v : Vector3) : Vector3 := v.
Definition sub (v w : Vector3) : Vector3 :=
  mkVector3 (x v - x w) (y v - y w) (z v - z w).
Definition add (v w : Vector3) : Vector3 :=
  mkVector3 (x v + x w) (y v + y w) (z v + z w).
Definition multiplyScalar (v : Vector3) (s : R) : Vector3 :=
  mkVector3 (x v * s) (y v * s) (z v * s).
End Vec.

(** ** Constants *)

Definition PERMANENT_PHOTOS : list string :=
  [ "/picture/12c4d7e60b6d8e78c5890f63c93c9d20.JPG";
    "/picture/1a37b000db75c8b0849b5ee3770c621e.JPG";
    "/picture/36fef6375fc7b236b205832d2ba799aa.JPG";
    "/picture/42c014aa95b7f848ecb0788c863f5282.JPG";
    "/picture/IMG_0133.JPG";
    "/picture/IMG_0129.JPG";
    "/picture/3b5a847c5437cdc522ad86ce8a1fb9d0.JPG";
    "/picture/14ac68aa2d4b1cb51d01bc3cba30d03a.JPG";
    "/picture/1edef4a7bef884c903a53d412649130f.JPG";
    "/picture/IMG_9295.JPG" ]%string.

Definition getDefaultPhotos : list string := PERMANENT_PHOTOS.

Definition SPRING_STIFFNESS : R := 25.
Definition SPRING_DAMPING : R := 8.
Definition SCALE_STIFFNESS : R := 30.
Definition SCALE_DAMPING : R := 10.

Definition photoWidth : R := 0.75.
Definition photoHeight : R := 0.95.

(** The literal of [photoUrls.slice(0, 12)] and [Math.min(.., 12)]. *)
Definition maxCards : nat := 12.

(** The literal of [existing?.scale || 0.4]. *)
Definition initialScale : R := 0.4.

(** The literals of [isFocused ? 5 : 0.4]. *)
Definition focusedScale : R := 5.
Definition ambientScale : R := 0.4.

(** The literal of [new THREE.Vector3(0, 0, 0.8)]. *)
Definition focusedPosition : Vector3 := mkVector3 0 0 0.8.

(** The literal of [Math.min(delta, 0.033)]. *)
Definition maxDt : R := 0.033.

(** ** Layout generator *)

(** The local constants [t], [y] and [radius] of
    [generateTreePhotoPosition], named so that statements can refer to
    them. *)
Definition treeT (index total : R) : R := (index + 0.5) / total.
Definition treeY (t : R) : R := t * 7 - 7 / 2 + 0.5.
Definition treeRadius (t : R) : R := 2.8 * (1 - t * 0.85).

Definition generateTreePhotoPosition (index total : R) : Triple :=
  let height := 7 in
  let maxRadius := 2.8 in
  let t := (index + 0.5) / total in
  let y := t * height - height / 2 + 0.5 in
  let radius := maxRadius * (1 - t * 0.85) in
  let angle := t * PI * 10 + index * PI * 0.5 in
  (cos angle * radius, y, sin angle * radius).

Definition generateGalaxyPhotoPosition (rng : nat -> R) : Rand Triple :=
  u1 <- random rng ;;
  let radius := 4 + u1 * 6 in
  u2 <- random rng ;;
  let theta := u2 * PI * 2 in
  u3 <- random rng ;;
  let phi := acos (2 * u3 - 1) in
  ret (radius * sin phi * cos theta,
       radius * sin phi * sin theta * 0.5,
       radius * cos phi).

(** ** Textures *)

(** What a texture shows: the image the loader fetched from a url, or the
    placeholder canvas filled with [hsl(hue, 60%, 50%)]. *)
Inductive TextureSource : Type :=
| LoadedFrom (url : string)
| PlaceholderCanvas (hue : nat).

(** [tex.image], when the loader attached one. *)
Record Image : Type := mkImage { width : R; height : R }.

(** The fields of [THREE.Texture] that the component reads or writes. *)
Record Texture : Type := mkTexture {
  source : TextureSource;
  image : option Image;
  repeat : R * R;
  offset : R * R
}.

Definition applyTextureCover (texture : Texture) (imageWidth imageHeight : R)
  : Texture :=
  let cardAspect := photoWidth / photoHeight in
  let imageAspect := imageWidth / imageHeight in
  if Rgt_dec imageAspect cardAspect then
    let scale := cardAspect / imageAspect in
    mkTexture (source texture) (image texture) (scale, 1) ((1 - scale) / 2, 0)
  else
    let scale := imageAspect / cardAspect in
    mkTexture (source texture) (image texture) (1, scale) (0, (1 - scale) / 2).

(** ** Cards *)

(** Modelled from the spec: the type [TreeState] is declared in
    [@/types/christmas], which is not among the sources; the spec gives the
    mode two values, "tree" and "galaxy". *)
Inductive TreeState : Type := tree | galaxy.

Record Photo : Type := mkPhoto {
  url : string;
  photoTreePosition : Triple;
  photoGalaxyPosition : Triple
}.

Record CardData : Type := mkCardData {
  treePosition : Triple;
  galaxyPosition : Triple;
  position : Vector3;
  velocity : Vector3;
  scale : R;
  scaleVelocity : R;
  texture : option Texture;
  textureUrl : string;
  time : R
}.

Definition setTexture (c : CardData) (t : option Texture) : CardData :=
  mkCardData (treePosition c) (galaxyPosition c) (position c) (velocity c)
    (scale c) (scaleVelocity c) t (textureUrl c) (time c).

Definition setTextureUrl (c : CardData) (u : string) : CardData :=
  mkCardData (treePosition c) (galaxyPosition c) (position c) (velocity c)
    (scale c) (scaleVelocity c) (texture c) u (time c).

(** [photos && photos.length > 0 ? photos : getDefaultPhotos()] *)
Definition photoUrls (photos : option (list string)) : list string :=
  match photos with
  | Some (p :: ps) => p :: ps
  | _ => getDefaultPhotos
  end.

(** The body of the [useMemo]: one entry per url of the first twelve, each
    with a tree position and a freshly drawn galaxy position. *)
Definition photoData (rng : nat -> R) (urls : list string)
  : Rand (list Photo) :=
  mapiM
    (fun url i =>
       let treePosition :=
         generateTreePhotoPosition (INR i)
           (INR (Nat.min (List.length urls) maxCards)) in
       galaxyPosition <- generateGalaxyPhotoPosition rng ;;
       ret (mkPhoto url treePosition galaxyPosition))
    0%nat (firstn maxCards urls).

(** A call [loader.load(photo.url, onLoad, undefined, onError)] issued for
    the card at [reqIndex]; both callbacks close over the index and the
    url. *)
Record LoadRequest : Type := mkLoadRequest {
  reqIndex : nat;
  reqUrl : string
}.

(** [existing?.textureUrl !== photo.url] *)
Definition urlChanged (existing : option CardData) (photoUrl : string) : bool :=
  match existing with
  | Some e => negb (String.eqb (textureUrl e) photoUrl)
  | None => true
  end.

(** [existing?.time || Math.random() * Math.PI * 2]: the draw is made only
    when the left operand is falsy. *)
Definition initialTime (rng : nat -> R) (existing : option CardData) : Rand R :=
  match existing with
  | Some e =>
      if Req_dec_T (time e) 0
      then u <- random rng ;; ret (u * PI * 2)
      else ret (time e)
  | None => u <- random rng ;; ret (u * PI * 2)
  end.

(** The callback of [photoData.map] in the effect: the card for [photo] at
    index [i], built from the card [old] has at that index, and the load it
    starts when the card has no texture. *)
Definition reconcileCard (rng : nat -> R) (old : list CardData)
    (photo : Photo) (i : nat) : Rand (CardData * option LoadRequest) :=
  let existing := nth_error old i in
  let changed := urlChanged existing (url photo) in
  t <- initialTime rng existing ;;
  let data :=
    mkCardData
      (photoTreePosition photo)
      (photoGalaxyPosition photo)
      (Js.opt_or_obj existing position (Vec.ofTriple (photoTreePosition photo)))
      (Js.opt_or_obj existing velocity (mkVector3 0 0 0))
      (Js.opt_or_num existing scale initialScale)
      (Js.opt_or_num existing scaleVelocity 0)
      (if changed then None
       else match existing with Some e => texture e | None => None end)
      (url photo)
      t in
  ret (data,
       match texture data with
       | None => Some (mkLoadRequest i (url photo))
       | Some _ => None
       end).

(** The loads a reconciliation starts, in the order of the cards. *)
Fixpoint requestsOf (l : list (CardData * option LoadRequest))
  : list LoadRequest :=
  match l with
  | [] => []
  | (_, Some r) :: l' => r :: requestsOf l'
  | (_, None) :: l' => requestsOf l'
  end.

(** The effect on [photoData]: the new store and the loads started. *)
Definition reconcile (rng : nat -> R) (old : list CardData)
    (photoData : list Photo) : Rand (list CardData * list LoadRequest) :=
  r <- mapiM (reconcileCard rng old) 0%nat photoData ;;
  ret (map fst r, requestsOf r).

(** One render with a new list of urls: the memo, then the effect. *)
Definition render (rng : nat -> R) (old : list CardData)
    (photos : option (list string))
  : Rand (list CardData * list LoadRequest) :=
  pd <- photoData rng (photoUrls photos) ;;
  reconcile rng old pd.

(** ** Texture completions *)

(** The success callback of the load [req], run on the store [cards] that
    is current at completion time with the texture [tex] the loader
    delivers. *)
Definition onLoad (req : LoadRequest) (tex : Texture) (cards : list CardData)
  : list CardData :=
  let tex :=
    match image tex with
    | Some img => applyTextureCover tex (width img) (height img)
    | None => tex
    end in
  match nth_error cards (reqIndex req) with
  | Some c =>
      Js.set_nth (reqIndex req)
        (setTextureUrl (setTexture c (Some tex)) (reqUrl req)) cards
  | None => cards
  end.

(** The canvas texture of the error callback; three.js gives a new texture
    [repeat = (1, 1)] and [offset = (0, 0)]. *)
Definition placeholderTex (i : nat) : Texture :=
  mkTexture (PlaceholderCanvas ((i * 30) mod 360)) None (1, 1) (0, 0).

(** The error callback of the load [req]. *)
Definition onError (req : LoadRequest) (cards : list CardData)
  : list CardData :=
  match nth_error cards (reqIndex req) with
  | Some c =>
      Js.set_nth (reqIndex req)
        (setTexture c (Some (placeholderTex (reqIndex req)))) cards
  | None => cards
  end.

(** What the loader reports for a request. *)
Inductive Completion : Type :=
| Loaded (tex : Texture)
| Failed.

Definition complete (req : LoadRequest) (c : Completion)
    (cards : list CardData) : list CardData :=
  match c with
  | Loaded tex => onLoad req tex cards
  | Failed => onError req cards
  end.

(** ** The frame step *)

(** The fields of a mesh group that the frame step writes; [facing] is the
    point handed to [lookAt]. *)
Record MeshGroup : Type := mkMeshGroup {
  meshPosition : Vector3;
  meshScale : Vector3;
  facing : Vector3
}.

(** [focusedIndex === i] *)
Definition isFocused (focusedIndex : option Z) (i : nat) : bool :=
  match focusedIndex with
  | Some k => Z.eqb k (Z.of_nat i)
  | None => false
  end.

Definition targetPos (state : TreeState) (focusedIndex : option Z) (i : nat)
    (card : CardData) : Vector3 :=
  if isFocused focusedIndex i then focusedPosition
  else match state with
       | tree => Vec.ofTriple (treePosition card)
       | galaxy => Vec.ofTriple (galaxyPosition card)
       end.

Definition targetScale (focusedIndex : option Z) (i : nat) : R :=
  if isFocused focusedIndex i then focusedScale else ambientScale.

(** The statements of one loop iteration that write the card. *)
Definition stepCard (state : TreeState) (focusedIndex : option Z) (dt : R)
    (i : nat) (card : CardData) : CardData :=
  let time' := time card + dt in
  let targetPos := targetPos state focusedIndex i card in
  let targetScale := targetScale focusedIndex i in
  let displacement := Vec.sub (Vec.clone (position card)) targetPos in
  let springForce := Vec.multiplyScalar displacement (- SPRING_STIFFNESS) in
  let dampingForce :=
    Vec.multiplyScalar (Vec.clone (velocity card)) (- SPRING_DAMPING) in
  let acceleration := Vec.add springForce dampingForce in
  let velocity' :=
    Vec.add (velocity card) (Vec.multiplyScalar acceleration dt) in
  let position' :=
    Vec.add (position card) (Vec.multiplyScalar (Vec.clone velocity') dt) in
  let scaleDisplacement := scale card - targetScale in
  let scaleSpringForce := - SCALE_STIFFNESS * scaleDisplacement in
  let scaleDampingForce := - SCALE_DAMPING * scaleVelocity card in
  let scaleVelocity' :=
    scaleVelocity card + (scaleSpringForce + scaleDampingForce) * dt in
  let scale' := scale card + scaleVelocity' * dt in
  mkCardData (treePosition card) (galaxyPosition card) position' velocity'
    scale' scaleVelocity' (texture card) (textureUrl card) time'.

(** The statements of one loop iteration that write the mesh group, from
    the card as the iteration has left it. *)
Definition stepMesh (focusedIndex : option Z) (camera : Vector3) (i : nat)
    (card : CardData) : MeshGroup :=
  let p := position card in
  let p :=
    if isFocused focusedIndex i then p
    else mkVector3 (x p) (y p + sin (time card * 0.5) * 0.005) (z p) in
  mkMeshGroup p (mkVector3 (scale card) (scale card) 1) camera.

(** One iteration of the [for] loop; [continue] when the mesh group or the
    card is missing. *)
Definition frameIteration (state : TreeState) (focusedIndex : option Z)
    (camera : Vector3) (dt : R)
    (w : list CardData * list (option MeshGroup)) (i : nat)
  : list CardData * list (option MeshGroup) :=
  let '(cards, meshRefs) := w in
  match nth_error cards i, nth_error meshRefs i with
  | Some card, Some (Some _) =>
      let card' := stepCard state focusedIndex dt i card in
      (Js.set_nth i card' cards,
       Js.set_nth i (Some (stepMesh focusedIndex camera i card')) meshRefs)
  | _, _ => w
  end.

(** The callback of [useFrame]. *)
Definition useFrame (state : TreeState) (focusedIndex : option Z)
    (camera : Vector3) (delta : R)
    (cards : list CardData) (meshRefs : list (option MeshGroup))
  : list CardData * list (option MeshGroup) :=
  let dt := Rmin delta maxDt in
  fold_left (frameIteration state focusedIndex camera dt)
    (seq 0 (List.length cards)) (cards, meshRefs).

(** ** The spring step in the words of the specification

    One axis of the semi-implicit scheme:
    [displacement = position - target];
    [accel = - stiffness * displacement - damping * velocity];
    [velocity += accel * dt]; [position += velocity * dt].
    The result is the new position and the new velocity. *)
Definition specSpring (stiffness damping dt position velocity target : R)
  : R * R :=
  let displacement := position - target in
  let accel := - stiffness * displacement - damping * velocity in
  let velocity' := velocity + accel * dt in
  let position' := position + velocity' * dt in
  (position', velocity').

(** ** The store and the mesh groups after a frame, index by index

    What the loop of [useFrame] leaves at index [i], given what it found
    there in the store and in [meshRefs]: the iteration runs when both are
    present and is skipped ([continue]) otherwise. *)
Definition cardAfter (state : TreeState) (focusedIndex : option Z) (dt : R)
    (i : nat) (c : option CardData) (m : option (option MeshGroup))
  : option CardData :=
  match c, m with
  | Some card, Some (Some _) => Some (stepCard state focusedIndex dt i card)
  | _, _ => c
  end.

Definition meshAfter (state : TreeState) (focusedIndex : option Z)
    (camera : Vector3) (dt : R)
    (i : nat) (c : option CardData) (m : option (option MeshGroup))
  : option (option MeshGroup) :=
  match c, m with
  | Some card, Some (Some _) =>
      Some (Some (stepMesh focusedIndex camera i
                    (stepCard state focusedIndex dt i card)))
  | _, _ => m
  end.

(** ** Two runs of the component *)

(** A load that resolves after its card has changed source.  The list is
    first ["a.jpg"] and then ["b.jpg"]; the load of "b.jpg" resolves, and
    then the load of "a.jpg" that the first render started. *)
Module StaleLoad.

Definition rng : nat -> R := fun _ => 1 / 2.
Definition urlA : string := "a.jpg".
Definition urlB : string := "b.jpg".

Definition first := render rng [] (Some [urlA]) 0%nat.
Definition second := render rng (fst (fst first)) (Some [urlB]) (snd first).

Definition reqA : LoadRequest := mkLoadRequest 0 urlA.
Definition reqB : LoadRequest := mkLoadRequest 0 urlB.

(** The texture the loader delivers for a url (here without image data,
    so that no crop is applied). *)
Definition texOf (u : string) : Texture :=
  mkTexture (LoadedFrom u) None (1, 1) (0, 0).

Definition afterB : list CardData :=
  complete reqB (Loaded (texOf urlB)) (fst (fst second)).
Definition afterStaleA : list CardData :=
  complete reqA (Loaded (texOf urlA)) afterB.

End StaleLoad.

(** One source of a two-card list is replaced.  The list is first
    ["a.jpg"; "b.jpg"]; one frame runs with card 1 focused; then the list
    becomes ["a.jpg"; "c.jpg"]. *)
Module ReplaceOne.

Definition rng : nat -> R := fun k => if (k <? 6)%nat then 0 else 1 / 2.
Definition urlA : string := "a.jpg".
Definition urlB : string := "b.jpg".
Definition urlC : string := "c.jpg".

Definition first := render rng [] (Some [urlA; urlB]) 0%nat.

Definition camera : Vector3 := mkVector3 0 0 10.
Definition mesh : MeshGroup :=
  mkMeshGroup (mkVector3 0 0 0) (mkVector3 0.4 0.4 1) camera.

Definition framed : list CardData :=
  fst (useFrame tree (Some 1%Z) camera 1 (fst (fst first))
         [Some mesh; Some mesh]).

Definition second := render rng framed (Some [urlA; urlC]) (snd first).

End ReplaceOne.

(** ** The texture poll, completions in sequence, frames in sequence *)

(** [cardDataRef.current.every(c => c.texture)], the test of the interval
    that stops forcing re-renders. *)
Definition allLoaded (cards : list CardData) : bool :=
  forallb (fun c => match texture c with Some _ => true | None => false end)
    cards.

(** Completions applied to the store one after the other, in the order in
    which the loader reports them. *)
Definition completeAll (evs : list (LoadRequest * Completion))
    (cards : list CardData) : list CardData :=
  fold_left (fun cs ev => complete (fst ev) (snd ev) cs) evs cards.

(** The frame callback run once per entry of [deltas], with the mode, the
    focus and the camera held fixed. *)
Definition runFrames (state : TreeState) (focusedIndex : option Z)
    (camera : Vector3) (deltas : list R)
    (w : list CardData * list (option MeshGroup))
  : list CardData * list (option MeshGroup) :=
  fold_left
    (fun w delta => useFrame state focusedIndex camera delta (fst w) (snd w))
    deltas w.

(** A measure of how far one spring axis is from rest at its target:
    [v^2 + damping * d * v + stiffness * d^2] with [d = position - target].
    It is zero exactly at rest when [damping^2 < 4 * stiffness]. *)
Definition springEnergy (stiffness damping position velocity target : R)
  : R :=
  let d := position - target in
  velocity * velocity + damping * d * velocity + stiffness * (d * d).

(** The factor by which a run of frames shrinks that measure: the product
    of [1 - 4 * dt] over the clamped time steps. *)
Fixpoint decay (deltas : list R) : R :=
  match deltas with
  | [] => 1
  | delta :: rest => (1 - 4 * Rmin delta maxDt) * decay rest
  end.

(** The card a completion writes in place of [c]: the two assignments of
    the success callback, or the one of the error callback. *)
Definition written (req : LoadRequest) (comp : Completion) (c : CardData)
  : CardData :=
  match comp with
  | Loaded tex =>
      setTextureUrl
        (setTexture c
           (Some match image tex with
                 | Some img => applyTextureCover tex (width img) (height img)
                 | None => tex
                 end))
        (reqUrl req)
  | Failed => setTexture c (Some (placeholderTex (reqIndex req)))
  end.

(** That measure for the position of a card (the sum over the three axes,
    against the target of the card) and for its scale, with the constants
    of the two springs. *)
Definition positionEnergy (state : TreeState) (focusedIndex : option Z)
    (i : nat) (card : CardData) : R :=
  let target := targetPos state focusedIndex i card in
  springEnergy SPRING_STIFFNESS SPRING_DAMPING
    (x (position card)) (x (velocity card)) (x target)
  + springEnergy SPRING_STIFFNESS SPRING_DAMPING
      (y (position card)) (y (velocity card)) (y target)
  + springEnergy SPRING_STIFFNESS SPRING_DAMPING
      (z (position card)) (z (velocity card)) (z target).

Definition scaleEnergy (focusedIndex : option Z) (i : nat) (card : CardData)
  : R :=
  springEnergy SCALE_STIFFNESS SCALE_DAMPING
    (scale card) (scaleVelocity card) (targetScale focusedIndex i).

(** The squared distance of a card from its target position. *)
Definition distance2 (state : TreeState) (focusedIndex : option Z)
    (i : nat) (card : CardData) : R :=
  let d := Vec.sub (position card) (targetPos state focusedIndex i card) in
  x d * x d + y d * y d + z d * z d.

(** ** Draws of the effect

    [existing?.time || Math.random() * Math.PI * 2] calls [Math.random]
    exactly when its left operand is falsy: [needsPhase existing] is the
    number of draws (one or none) the callback of the effect makes for a
    card, and [phaseDraws old i k] the number made for the [k] cards from
    index [i] on. *)
Definition needsPhase (existing : option CardData) : nat :=
  match existing with
  | Some e => if Req_dec_T (time e) 0 then 1 else 0
  | None => 1
  end.

Fixpoint phaseDraws (old : list CardData) (i k : nat) : nat :=
  match k with
  | O => 0
  | S k' => needsPhase (nth_error old i) + phaseDraws old (S i) k'
  end.

(** * Properties *)

(** ** Layout generator *)

Section TreeLayout.

Lemma treeT_mono (total i j : nat) :
  (i <= j)%nat -> (0 < total)%nat ->
  treeT (INR i) (INR total) <= treeT (INR j) (INR total).
Proof.
  intros Hij Ht. unfold treeT, Rdiv.
  apply Rmult_le_compat_r.
  - left. apply Rinv_0_lt_compat. apply (lt_INR 0). exact Ht.
  - apply le_INR in Hij. lra.
Qed.

Lemma treeT_strict (total i j : nat) :
  (i < j)%nat -> (0 < total)%nat ->
  treeT (INR i) (INR total) < treeT (INR j) (INR total).
Proof.
  intros Hij Ht. unfold treeT, Rdiv.
  apply Rmult_lt_compat_r.
  - apply Rinv_0_lt_compat. apply (lt_INR 0). exact Ht.
  - apply lt_INR in Hij. lra.
Qed.

Lemma treeT_range (total i : nat) :
  (i < total)%nat -> 0 < treeT (INR i) (INR total) < 1.
Proof.
  intros Hi.
  assert (Ht : 0 < INR total) by (apply (lt_INR 0); lia).
  assert (Hi0 : 0 <= INR i) by apply pos_INR.
  assert (Hi1 : INR i + 1 <= INR total).
  { rewrite <- S_INR. apply le_INR. lia. }
  unfold treeT. split.
  - apply Rdiv_lt_0_compat; lra.
  - apply (Rmult_lt_reg_r (INR total)); [exact Ht|].
    unfold Rdiv. rewrite Rmult_assoc, Rinv_l by lra. lra.
Qed.

Lemma treeRadius_antitone (t1 t2 : R) :
  t1 < t2 -> treeRadius t2 < treeRadius t1.
Proof. unfold treeRadius. intros H. lra. Qed.

Lemma treeY_mono (t1 t2 : R) : t1 <= t2 -> treeY t1 <= treeY t2.
Proof. unfold treeY. intros H. lra. Qed.

(** The triple the source returns, through its named local constants. *)
Lemma generateTreePhotoPosition_eq (index total : R) :
  generateTreePhotoPosition index total =
  let t := treeT index total in
  let angle := t * PI * 10 + index * PI * 0.5 in
  (cos angle * treeRadius t, treeY t, sin angle * treeRadius t).
Proof. reflexivity. Qed.

(** The distance of a tree position from the vertical axis is the local
    [radius]. *)
Lemma tree_axis_distance (total i : nat) :
  (i < total)%nat ->
  let '(px, _, pz) := generateTreePhotoPosition (INR i) (INR total) in
  sqrt (px * px + pz * pz) = treeRadius (treeT (INR i) (INR total)).
Proof.
  intros Hi. rewrite generateTreePhotoPosition_eq. cbv beta iota zeta.
  set (t := treeT (INR i) (INR total)).
  set (a := t * PI * 10 + INR i * PI * 0.5).
  assert (Hr : 0 <= treeRadius t).
  { pose proof (treeT_range total i Hi) as Ht. fold t in Ht.
    unfold treeRadius. lra. }
  replace (cos a * treeRadius t * (cos a * treeRadius t)
           + sin a * treeRadius t * (sin a * treeRadius t))
    with (treeRadius t * treeRadius t * ((sin a)² + (cos a)²))
    by (unfold Rsqr; ring).
  rewrite sin2_cos2, Rmult_1_r. apply sqrt_square. exact Hr.
Qed.

End TreeLayout.

(** C7.  For [0 <= i <= j < total] the height of the tree position does not
    decrease from index [i] to index [j]; the local [radius] is a strictly
    decreasing function of [t]; it is the distance of the returned point
    from the vertical axis, which therefore strictly decreases with the
    index. *)
Theorem tree_layout_monotone (total i j : nat) :
  (i <= j)%nat -> (j < total)%nat ->
  let '(xi, yi, zi) := generateTreePhotoPosition (INR i) (INR total) in
  let '(xj, yj, zj) := generateTreePhotoPosition (INR j) (INR total) in
  yi <= yj /\
  yi = treeY (treeT (INR i) (INR total)) /\
  (forall t1 t2 : R, t1 < t2 -> treeRadius t2 < treeRadius t1) /\
  sqrt (xi * xi + zi * zi) = treeRadius (treeT (INR i) (INR total)) /\
  ((i < j)%nat -> sqrt (xj * xj + zj * zj) < sqrt (xi * xi + zi * zi)).
Proof.
  intros Hij Hj.
  assert (Hi : (i < total)%nat) by lia.
  pose proof (tree_axis_distance total i Hi) as Di.
  pose proof (tree_axis_distance total j Hj) as Dj.
  rewrite generateTreePhotoPosition_eq in Di, Dj |- *.
  rewrite (generateTreePhotoPosition_eq (INR j)).
  cbv beta iota zeta in *.
  repeat split.
  - apply treeY_mono, treeT_mono; lia.
  - exact treeRadius_antitone.
  - exact Di.
  - intros Hlt. rewrite Di, Dj.
    apply treeRadius_antitone, treeT_strict; lia.
Qed.

Lemma tree_layout_monotone_witness :
  let '(xi, yi, zi) := generateTreePhotoPosition (INR 0) (INR 2) in
  let '(xj, yj, zj) := generateTreePhotoPosition (INR 1) (INR 2) in
  yi <= yj /\
  yi = treeY (treeT (INR 0) (INR 2)) /\
  (forall t1 t2 : R, t1 < t2 -> treeRadius t2 < treeRadius t1) /\
  sqrt (xi * xi + zi * zi) = treeRadius (treeT (INR 0) (INR 2)) /\
  ((0 < 1)%nat -> sqrt (xj * xj + zj * zj) < sqrt (xi * xi + zi * zi)).
Proof. apply (tree_layout_monotone 2 0 1); lia. Defined.

Section GalaxyLayout.

Variable rng : nat -> R.

(** The three draws of one call, in order: radius, azimuth, polar angle. *)
Lemma generateGalaxyPhotoPosition_run (n : nat) :
  generateGalaxyPhotoPosition rng n =
  (let radius := 4 + rng n * 6 in
   let theta := rng (S n) * PI * 2 in
   let phi := acos (2 * rng (S (S n)) - 1) in
   (radius * sin phi * cos theta,
    radius * sin phi * sin theta * 0.5,
    radius * cos phi),
   S (S (S n))).
Proof. reflexivity. Qed.

Lemma shell_norm (r phi theta : R) :
  0 <= r ->
  sqrt (r * sin phi * cos theta * (r * sin phi * cos theta)
        + r * sin phi * sin theta * 0.5 / 0.5
          * (r * sin phi * sin theta * 0.5 / 0.5)
        + r * cos phi * (r * cos phi)) = r.
Proof.
  intros Hr.
  replace (r * sin phi * cos theta * (r * sin phi * cos theta)
           + r * sin phi * sin theta * 0.5 / 0.5
             * (r * sin phi * sin theta * 0.5 / 0.5)
           + r * cos phi * (r * cos phi))
    with (r * r * ((sin phi)² * ((sin theta)² + (cos theta)²) + (cos phi)²))
    by (unfold Rsqr; field; lra).
  rewrite (sin2_cos2 theta), (Rmult_1_r (sin phi)²), (sin2_cos2 phi), Rmult_1_r.
  apply sqrt_square. exact Hr.
Qed.

End GalaxyLayout.

(** C8.  Whatever the three samples in [[0, 1)], the point drawn by
    [generateGalaxyPhotoPosition], with the flattening factor [0.5] of its
    second coordinate taken out, has Euclidean norm [4 + 6 * u1], which lies
    in [[4, 10]]. *)
Theorem galaxy_magnitude_in_shell (rng : nat -> R) (n : nat) :
  0 <= rng n < 1 -> 0 <= rng (S n) < 1 -> 0 <= rng (S (S n)) < 1 ->
  let '(px, py, pz) := fst (generateGalaxyPhotoPosition rng n) in
  sqrt (px * px + py / 0.5 * (py / 0.5) + pz * pz) = 4 + rng n * 6 /\
  4 <= sqrt (px * px + py / 0.5 * (py / 0.5) + pz * pz) <= 10.
Proof.
  intros H1 H2 H3. rewrite generateGalaxyPhotoPosition_run.
  cbv beta iota zeta. cbn [fst].
  rewrite shell_norm by lra. lra.
Qed.

Lemma galaxy_magnitude_in_shell_witness :
  let '(px, py, pz) :=
    fst (generateGalaxyPhotoPosition (fun _ => 1 / 2) 0%nat) in
  sqrt (px * px + py / 0.5 * (py / 0.5) + pz * pz) = 4 + 1 / 2 * 6 /\
  4 <= sqrt (px * px + py / 0.5 * (py / 0.5) + pz * pz) <= 10.
Proof.
  apply (galaxy_magnitude_in_shell (fun _ => 1 / 2) 0%nat); lra.
Defined.

(** ** Cover fit *)

(** Side conditions of [field] on the two photo dimensions. *)
Ltac aspect_side :=
  unfold photoWidth, photoHeight in *; repeat split; lra.

Section CoverFit.

Lemma cardAspect_pos : 0 < photoWidth / photoHeight.
Proof. unfold photoWidth, photoHeight. apply Rdiv_lt_0_compat; lra. Qed.

Lemma aspect_pos (w h : R) : 0 < w -> 0 < h -> 0 < w / h.
Proof. intros Hw Hh. apply Rdiv_lt_0_compat; assumption. Qed.

(** A quotient of positive reals against [1]. *)
Lemma ratio_lt_1 (a b : R) : 0 < a -> a < b -> 0 < a / b < 1.
Proof.
  intros Ha Hab. split.
  - apply Rdiv_lt_0_compat; lra.
  - apply (Rmult_lt_reg_r b); [lra|].
    unfold Rdiv. rewrite Rmult_assoc, Rinv_l by lra. lra.
Qed.

Lemma ratio_le_1 (a b : R) : 0 < a -> a <= b -> 0 < a / b <= 1.
Proof.
  intros Ha Hab. split.
  - apply Rdiv_lt_0_compat; lra.
  - apply (Rmult_le_reg_r b); [lra|].
    unfold Rdiv. rewrite Rmult_assoc, Rinv_l by lra. lra.
Qed.

(** The wider branch of [applyTextureCover]. *)
Lemma applyTextureCover_wide (tex : Texture) (w h : R) :
  w / h > photoWidth / photoHeight ->
  applyTextureCover tex w h =
  let s := photoWidth / photoHeight / (w / h) in
  mkTexture (source tex) (image tex) (s, 1) ((1 - s) / 2, 0).
Proof.
  intros H. unfold applyTextureCover.
  destruct (Rgt_dec (w / h) (photoWidth / photoHeight)) as [_|N];
    [reflexivity | contradiction].
Qed.

(** The other branch. *)
Lemma applyTextureCover_tall (tex : Texture) (w h : R) :
  ~ w / h > photoWidth / photoHeight ->
  applyTextureCover tex w h =
  let s := w / h / (photoWidth / photoHeight) in
  mkTexture (source tex) (image tex) (1, s) (0, (1 - s) / 2).
Proof.
  intros H. unfold applyTextureCover.
  destruct (Rgt_dec (w / h) (photoWidth / photoHeight)) as [Y|_];
    [contradiction | reflexivity].
Qed.

End CoverFit.

(** C4.  For an image of positive width and height, with
    [sourceAspect = w / h] and [targetAspect = photoWidth / photoHeight]:
    when [sourceAspect > targetAspect] the repeat is [(s, 1)] and the offset
    [((1 - s) / 2, 0)] with [s = targetAspect / sourceAspect]; otherwise the
    repeat is [(1, s)] and the offset [(0, (1 - s) / 2)] with
    [s = sourceAspect / targetAspect].  Equal aspects give repeat [(1, 1)]
    and offset [(0, 0)]; a source twice as wide as the target gives
    horizontal repeat [0.5] and horizontal offset [0.25]. *)
Theorem cover_fit_transform (tex : Texture) (w h : R) :
  0 < w -> 0 < h ->
  let sourceAspect := w / h in
  let targetAspect := photoWidth / photoHeight in
  let out := applyTextureCover tex w h in
  (sourceAspect > targetAspect ->
   let s := targetAspect / sourceAspect in
   repeat out = (s, 1) /\ offset out = ((1 - s) / 2, 0)) /\
  (~ sourceAspect > targetAspect ->
   let s := sourceAspect / targetAspect in
   repeat out = (1, s) /\ offset out = (0, (1 - s) / 2)) /\
  (sourceAspect = targetAspect ->
   repeat out = (1, 1) /\ offset out = (0, 0)) /\
  (sourceAspect = 2 * targetAspect ->
   repeat out = (0.5, 1) /\ offset out = (0.25, 0)).
Proof.
  intros Hw Hh. cbv zeta.
  pose proof cardAspect_pos as Hc.
  repeat split.
  - rewrite applyTextureCover_wide by assumption. reflexivity.
  - rewrite applyTextureCover_wide by assumption. reflexivity.
  - rewrite applyTextureCover_tall by assumption. reflexivity.
  - rewrite applyTextureCover_tall by assumption. reflexivity.
  - rewrite applyTextureCover_tall by lra. cbv zeta. cbn [repeat].
    rewrite H. f_equal. field. aspect_side.
  - rewrite applyTextureCover_tall by lra. cbv zeta. cbn [offset].
    rewrite H. f_equal. field. aspect_side.
  - rewrite applyTextureCover_wide by lra. cbv zeta. cbn [repeat].
    rewrite H. f_equal. replace 0.5 with (1 / 2) by lra. field. aspect_side.
  - rewrite applyTextureCover_wide by lra. cbv zeta. cbn [offset].
    rewrite H. f_equal. replace 0.25 with (1 / 4) by lra. field. aspect_side.
Qed.

Lemma cover_fit_transform_witness :
  let tex := mkTexture (LoadedFrom "a.jpg") None (1, 1) (0, 0) in
  let sourceAspect := 1500 / 950 in
  let targetAspect := photoWidth / photoHeight in
  let out := applyTextureCover tex 1500 950 in
  (sourceAspect > targetAspect ->
   let s := targetAspect / sourceAspect in
   repeat out = (s, 1) /\ offset out = ((1 - s) / 2, 0)) /\
  (~ sourceAspect > targetAspect ->
   let s := sourceAspect / targetAspect in
   repeat out = (1, s) /\ offset out = (0, (1 - s) / 2)) /\
  (sourceAspect = targetAspect ->
   repeat out = (1, 1) /\ offset out = (0, 0)) /\
  (sourceAspect = 2 * targetAspect ->
   repeat out = (0.5, 1) /\ offset out = (0.25, 0)).
Proof.
  apply (cover_fit_transform
           (mkTexture (LoadedFrom "a.jpg") None (1, 1) (0, 0)) 1500 950); lra.
Defined.

(** C10.  For an image of positive width and height the crop window stays
    inside the unit square: each repeat component is in [(0, 1]], each
    offset component is [(1 - repeat) / 2] and lies in [[0, 1/2)], and
    offset plus repeat is at most [1] on each axis. *)
Theorem cover_fit_window_in_unit_square (tex : Texture) (w h : R) :
  0 < w -> 0 < h ->
  let out := applyTextureCover tex w h in
  let '(rx, ry) := repeat out in
  let '(ox, oy) := offset out in
  (0 < rx <= 1 /\ 0 < ry <= 1) /\
  (ox = (1 - rx) / 2 /\ oy = (1 - ry) / 2) /\
  (0 <= ox < 1 / 2 /\ 0 <= oy < 1 / 2) /\
  (ox + rx <= 1 /\ oy + ry <= 1).
Proof.
  intros Hw Hh. cbv zeta.
  pose proof cardAspect_pos as Hc.
  pose proof (aspect_pos w h Hw Hh) as Ha.
  destruct (Rgt_dec (w / h) (photoWidth / photoHeight)) as [Hgt|Hle].
  - rewrite applyTextureCover_wide by assumption. cbn.
    pose proof (ratio_lt_1 _ _ Hc Hgt) as Hs. lra.
  - rewrite applyTextureCover_tall by assumption. cbn.
    assert (Hle' : w / h <= photoWidth / photoHeight) by lra.
    pose proof (ratio_le_1 _ _ Ha Hle') as Hs. lra.
Qed.

Lemma cover_fit_window_in_unit_square_witness :
  let out :=
    applyTextureCover (mkTexture (LoadedFrom "a.jpg") None (1, 1) (0, 0))
      1500 950 in
  let '(rx, ry) := repeat out in
  let '(ox, oy) := offset out in
  (0 < rx <= 1 /\ 0 < ry <= 1) /\
  (ox = (1 - rx) / 2 /\ oy = (1 - ry) / 2) /\
  (0 <= ox < 1 / 2 /\ 0 <= oy < 1 / 2) /\
  (ox + rx <= 1 /\ oy + ry <= 1).
Proof.
  apply (cover_fit_window_in_unit_square
           (mkTexture (LoadedFrom "a.jpg") None (1, 1) (0, 0)) 1500 950); lra.
Defined.

(** ** Array writes *)

Section SetNth.

Context {A : Type}.

Lemma length_set_nth (i : nat) (v : A) (l : list A) :
  List.length (Js.set_nth i v l) = List.length l.
Proof.
  revert i. induction l as [|a l IH]; intros [|i]; cbn; auto.
Qed.

Lemma nth_error_set_nth_eq (i : nat) (v : A) (l : list A) :
  (i < List.length l)%nat -> nth_error (Js.set_nth i v l) i = Some v.
Proof.
  revert i. induction l as [|a l IH]; intros [|i] H; cbn in *;
    try lia; auto.
  apply IH. lia.
Qed.

Lemma nth_error_set_nth_ne (i j : nat) (v : A) (l : list A) :
  i <> j -> nth_error (Js.set_nth i v l) j = nth_error l j.
Proof.
  revert i j. induction l as [|a l IH]; intros [|i] [|j] H; cbn;
    try reflexivity; try congruence.
  apply IH. congruence.
Qed.

End SetNth.

(** ** The frame step *)

Section Frame.

Variable state : TreeState.
Variable focusedIndex : option Z.
Variable camera : Vector3.
Variable dt : R.

Lemma frameIteration_nth (cards : list CardData)
    (meshRefs : list (option MeshGroup)) (a i : nat) :
  let w := frameIteration state focusedIndex camera dt (cards, meshRefs) a in
  nth_error (fst w) i =
    (if Nat.eqb a i
     then cardAfter state focusedIndex dt i
            (nth_error cards i) (nth_error meshRefs i)
     else nth_error cards i) /\
  nth_error (snd w) i =
    (if Nat.eqb a i
     then meshAfter state focusedIndex camera dt i
            (nth_error cards i) (nth_error meshRefs i)
     else nth_error meshRefs i).
Proof.
  cbv zeta. unfold frameIteration, cardAfter, meshAfter.
  destruct (Nat.eqb_spec a i) as [->|Hne].
  - destruct (nth_error cards i) as [card|] eqn:Ec;
      [destruct (nth_error meshRefs i) as [[m|]|] eqn:Em|];
      cbn [fst snd]; rewrite ?Ec, ?Em; auto.
    split; apply nth_error_set_nth_eq; apply nth_error_Some; congruence.
  - destruct (nth_error cards a) as [card|];
      [destruct (nth_error meshRefs a) as [[m|]|]|];
      cbn [fst snd]; auto.
    split; apply nth_error_set_nth_ne; assumption.
Qed.

Lemma frame_fold_nth (n a : nat) (cards : list CardData)
    (meshRefs : list (option MeshGroup)) (i : nat) :
  let w :=
    fold_left (frameIteration state focusedIndex camera dt) (seq a n)
      (cards, meshRefs) in
  nth_error (fst w) i =
    (if (Nat.leb a i && Nat.ltb i (a + n))%bool
     then cardAfter state focusedIndex dt i
            (nth_error cards i) (nth_error meshRefs i)
     else nth_error cards i) /\
  nth_error (snd w) i =
    (if (Nat.leb a i && Nat.ltb i (a + n))%bool
     then meshAfter state focusedIndex camera dt i
            (nth_error cards i) (nth_error meshRefs i)
     else nth_error meshRefs i).
Proof.
  revert a cards meshRefs. induction n as [|n IH]; intros a cards meshRefs.
  - cbn [seq fold_left fst snd].
    replace (Nat.leb a i && Nat.ltb i (a + 0))%bool with false; auto.
    symmetry. apply Bool.andb_false_iff.
    destruct (Nat.leb_spec a i); [right; apply Nat.ltb_ge; lia | left; auto].
  - cbn [seq fold_left].
    pose proof (frameIteration_nth cards meshRefs a i) as Hstep.
    cbv zeta in Hstep.
    destruct (frameIteration state focusedIndex camera dt (cards, meshRefs) a)
      as [cards1 meshRefs1].
    specialize (IH (S a) cards1 meshRefs1). cbv zeta in IH |- *.
    destruct IH as [IHc IHm]. rewrite IHc, IHm.
    destruct Hstep as [Hc Hm]. cbn [fst snd] in Hc, Hm. rewrite Hc, Hm.
    destruct (Nat.eqb_spec a i) as [->|Hne].
    + replace (Nat.leb (S i) i && Nat.ltb i (S i + n))%bool with false
        by (symmetry; apply Bool.andb_false_iff; left;
            apply Nat.leb_gt; lia).
      replace (Nat.leb i i && Nat.ltb i (i + S n))%bool with true
        by (symmetry; apply Bool.andb_true_iff; split;
            [apply Nat.leb_le | apply Nat.ltb_lt]; lia).
      auto.
    + replace (Nat.leb (S a) i && Nat.ltb i (S a + n))%bool
        with (Nat.leb a i && Nat.ltb i (a + S n))%bool; auto.
      replace (a + S n)%nat with (S a + n)%nat by lia. f_equal.
      destruct (Nat.leb_spec a i), (Nat.leb_spec (S a) i);
        try reflexivity; lia.
Qed.

End Frame.

(** The store after a frame, index by index: a card that has a mesh group
    is stepped with the clamped time step, any other card is skipped. *)
Lemma useFrame_cards_nth (state : TreeState) (focusedIndex : option Z)
    (camera : Vector3) (delta : R) (cards : list CardData)
    (meshRefs : list (option MeshGroup)) (i : nat) :
  nth_error (fst (useFrame state focusedIndex camera delta cards meshRefs)) i =
  cardAfter state focusedIndex (Rmin delta maxDt) i
    (nth_error cards i) (nth_error meshRefs i).
Proof.
  unfold useFrame. cbv zeta.
  pose proof (frame_fold_nth state focusedIndex camera (Rmin delta maxDt)
                (List.length cards) 0 cards meshRefs i) as [Hc _].
  rewrite Hc. cbn [Nat.leb andb Nat.add].
  destruct (Nat.ltb_spec i (List.length cards)) as [Hlt|Hge]; [reflexivity|].
  apply nth_error_None in Hge. rewrite Hge. reflexivity.
Qed.

(** The mesh groups after a frame. *)
Lemma useFrame_meshes_nth (state : TreeState) (focusedIndex : option Z)
    (camera : Vector3) (delta : R) (cards : list CardData)
    (meshRefs : list (option MeshGroup)) (i : nat) :
  nth_error (snd (useFrame state focusedIndex camera delta cards meshRefs)) i =
  meshAfter state focusedIndex camera (Rmin delta maxDt) i
    (nth_error cards i) (nth_error meshRefs i).
Proof.
  unfold useFrame. cbv zeta.
  pose proof (frame_fold_nth state focusedIndex camera (Rmin delta maxDt)
                (List.length cards) 0 cards meshRefs i) as [_ Hm].
  rewrite Hm. cbn [Nat.leb andb Nat.add].
  destruct (Nat.ltb_spec i (List.length cards)) as [Hlt|Hge]; [reflexivity|].
  apply nth_error_None in Hge. rewrite Hge. reflexivity.
Qed.

(** One loop iteration against the scheme of the specification, axis by
    axis for the position and in scalar form for the scale. *)
Lemma stepCard_specSpring (state : TreeState) (focusedIndex : option Z)
    (dt : R) (i : nat) (card : CardData) :
  let card' := stepCard state focusedIndex dt i card in
  let target := targetPos state focusedIndex i card in
  (x (position card'), x (velocity card')) =
    specSpring SPRING_STIFFNESS SPRING_DAMPING dt
      (x (position card)) (x (velocity card)) (x target) /\
  (y (position card'), y (velocity card')) =
    specSpring SPRING_STIFFNESS SPRING_DAMPING dt
      (y (position card)) (y (velocity card)) (y target) /\
  (z (position card'), z (velocity card')) =
    specSpring SPRING_STIFFNESS SPRING_DAMPING dt
      (z (position card)) (z (velocity card)) (z target) /\
  (scale card', scaleVelocity card') =
    specSpring SCALE_STIFFNESS SCALE_DAMPING dt
      (scale card) (scaleVelocity card) (targetScale focusedIndex i).
Proof.
  cbv zeta. unfold stepCard, specSpring. cbv zeta.
  unfold Vec.add, Vec.sub, Vec.multiplyScalar, Vec.clone.
  cbn [position velocity scale scaleVelocity x y z].
  repeat split; f_equal; ring.
Qed.

(** C5.  A frame with time [delta] steps every card that has a mesh group
    with [dt = min(delta, 0.033)], which is at most [0.033]: each axis of
    the position and velocity, and the scale with its velocity, are the
    results of the semi-implicit scheme of the specification, with
    stiffness 25 and damping 8 for the position and stiffness 30 and
    damping 10 for the scale. *)
Theorem frame_spring_step (state : TreeState) (focusedIndex : option Z)
    (camera : Vector3) (delta : R) (cards : list CardData)
    (meshRefs : list (option MeshGroup)) (i : nat) (card : CardData)
    (mesh : MeshGroup) :
  nth_error cards i = Some card ->
  nth_error meshRefs i = Some (Some mesh) ->
  exists card' : CardData,
    nth_error
      (fst (useFrame state focusedIndex camera delta cards meshRefs)) i
      = Some card' /\
    let dt := Rmin delta 0.033 in
    let target := targetPos state focusedIndex i card in
    dt <= 0.033 /\
    (delta <= 0.033 -> dt = delta) /\
    (x (position card'), x (velocity card')) =
      specSpring 25 8 dt (x (position card)) (x (velocity card)) (x target) /\
    (y (position card'), y (velocity card')) =
      specSpring 25 8 dt (y (position card)) (y (velocity card)) (y target) /\
    (z (position card'), z (velocity card')) =
      specSpring 25 8 dt (z (position card)) (z (velocity card)) (z target) /\
    (scale card', scaleVelocity card') =
      specSpring 30 10 dt (scale card) (scaleVelocity card)
        (targetScale focusedIndex i).
Proof.
  intros Hc Hm.
  exists (stepCard state focusedIndex (Rmin delta maxDt) i card). split.
  - rewrite useFrame_cards_nth, Hc, Hm. reflexivity.
  - cbv zeta. split; [apply Rmin_r|]. split; [apply Rmin_left|].
    exact (stepCard_specSpring state focusedIndex (Rmin delta maxDt) i card).
Qed.

(** The two target functions by cases on the focus index and the mode. *)
Theorem target_selection (state : TreeState) (focusedIndex : option Z)
    (i : nat) (card : CardData) :
  (focusedIndex = Some (Z.of_nat i) ->
   targetPos state focusedIndex i card = mkVector3 0 0 0.8 /\
   targetScale focusedIndex i = focusedScale) /\
  (focusedIndex <> Some (Z.of_nat i) ->
   targetPos state focusedIndex i card =
     match state with
     | tree => Vec.ofTriple (treePosition card)
     | galaxy => Vec.ofTriple (galaxyPosition card)
     end /\
   targetScale focusedIndex i = ambientScale) /\
  ambientScale < focusedScale.
Proof.
  unfold targetPos, targetScale, isFocused. split; [|split].
  - intros ->. rewrite Z.eqb_refl. split; reflexivity.
  - intros Hne. destruct focusedIndex as [k|]; [|split; reflexivity].
    destruct (Z.eqb_spec k (Z.of_nat i)) as [->|_];
      [congruence | split; reflexivity].
  - unfold ambientScale, focusedScale. lra.
Qed.

Lemma target_selection_witness :
  let card :=
    mkCardData (1, 2, 3) (4, 5, 6) (mkVector3 0 0 0) (mkVector3 0 0 0)
      0.4 0 None "a.jpg" 0 in
  (Some 1%Z = Some (Z.of_nat 1) ->
   targetPos galaxy (Some 1%Z) 1 card = mkVector3 0 0 0.8 /\
   targetScale (Some 1%Z) 1 = focusedScale) /\
  (Some 1%Z <> Some (Z.of_nat 1) ->
   targetPos galaxy (Some 1%Z) 1 card = Vec.ofTriple (galaxyPosition card) /\
   targetScale (Some 1%Z) 1 = ambientScale) /\
  ambientScale < focusedScale.
Proof.
  exact (target_selection galaxy (Some 1%Z) 1
           (mkCardData (1, 2, 3) (4, 5, 6) (mkVector3 0 0 0) (mkVector3 0 0 0)
              0.4 0 None "a.jpg" 0)).
Defined.

Lemma frame_spring_step_witness :
  let card :=
    mkCardData (1, 2, 3) (4, 5, 6) (mkVector3 1 2 3) (mkVector3 0 0 0)
      0.4 0 None "a.jpg" 1 in
  let mesh := mkMeshGroup (mkVector3 1 2 3) (mkVector3 0.4 0.4 1)
                (mkVector3 0 0 10) in
  exists card' : CardData,
    nth_error
      (fst (useFrame galaxy None (mkVector3 0 0 10) 1 [card] [Some mesh]))
      0 = Some card' /\
    let dt := Rmin 1 0.033 in
    let target := targetPos galaxy None 0 card in
    dt <= 0.033 /\
    (1 <= 0.033 -> dt = 1) /\
    (x (position card'), x (velocity card')) =
      specSpring 25 8 dt (x (position card)) (x (velocity card)) (x target) /\
    (y (position card'), y (velocity card')) =
      specSpring 25 8 dt (y (position card)) (y (velocity card)) (y target) /\
    (z (position card'), z (velocity card')) =
      specSpring 25 8 dt (z (position card)) (z (velocity card)) (z target) /\
    (scale card', scaleVelocity card') =
      specSpring 30 10 dt (scale card) (scaleVelocity card)
        (targetScale None 0).
Proof.
  apply (frame_spring_step galaxy None (mkVector3 0 0 10) 1
           [mkCardData (1, 2, 3) (4, 5, 6) (mkVector3 1 2 3) (mkVector3 0 0 0)
              0.4 0 None "a.jpg" 1]
           [Some (mkMeshGroup (mkVector3 1 2 3) (mkVector3 0.4 0.4 1)
                    (mkVector3 0 0 10))]
           0
           (mkCardData (1, 2, 3) (4, 5, 6) (mkVector3 1 2 3) (mkVector3 0 0 0)
              0.4 0 None "a.jpg" 1)
           (mkMeshGroup (mkVector3 1 2 3) (mkVector3 0.4 0.4 1)
              (mkVector3 0 0 10))); reflexivity.
Defined.

(** ** The indexed map with draws *)

Section MapiM.

Context {A B : Type} (f : A -> nat -> Rand B).

Lemma mapiM_cons (i : nat) (a : A) (l : list A) (n : nat) :
  mapiM f i (a :: l) n =
  (fst (f a i n) :: fst (mapiM f (S i) l (snd (f a i n))),
   snd (mapiM f (S i) l (snd (f a i n)))).
Proof.
  cbn [mapiM]. unfold bind, ret.
  destruct (f a i n) as [b n1]. cbn [fst snd].
  destruct (mapiM f (S i) l n1) as [bs n2]. reflexivity.
Qed.

Lemma mapiM_length (i : nat) (l : list A) (n : nat) :
  List.length (fst (mapiM f i l n)) = List.length l.
Proof.
  revert i n. induction l as [|a l IH]; intros i n; [reflexivity|].
  rewrite mapiM_cons. cbn [fst List.length]. rewrite IH. reflexivity.
Qed.

(** When every call makes the same number [d] of draws, the state at each
    index is known. *)
Lemma mapiM_nth_fixed (d : nat)
    (Hd : forall a i n, snd (f a i n) = (d + n)%nat)
    (i : nat) (l : list A) (n k : nat) :
  nth_error (fst (mapiM f i l n)) k =
  option_map (fun a => fst (f a (i + k)%nat (n + d * k)%nat)) (nth_error l k).
Proof.
  revert i n k. induction l as [|a0 l IH]; intros i n k.
  - destruct k; reflexivity.
  - rewrite mapiM_cons. cbn [fst]. destruct k as [|k]; cbn [nth_error option_map].
    + rewrite Nat.mul_0_r, !Nat.add_0_r. reflexivity.
    + rewrite IH, Hd.
      replace (i + S k)%nat with (S i + k)%nat by lia.
      replace (d + n + d * k)%nat with (n + d * S k)%nat by lia.
      reflexivity.
Qed.

Lemma mapiM_counter_fixed (d : nat)
    (Hd : forall a i n, snd (f a i n) = (d + n)%nat)
    (i : nat) (l : list A) (n : nat) :
  snd (mapiM f i l n) = (n + d * List.length l)%nat.
Proof.
  revert i n. induction l as [|a0 l IH]; intros i n.
  - cbn. lia.
  - rewrite mapiM_cons. cbn [snd List.length]. rewrite IH, Hd. lia.
Qed.

(** Each element of the result is the callback run on the element of the
    same index, at some state of the random source. *)
Lemma mapiM_nth_some (i : nat) (l : list A) (n k : nat) (a : A) :
  nth_error l k = Some a ->
  exists n' : nat,
    nth_error (fst (mapiM f i l n)) k = Some (fst (f a (i + k) n')).
Proof.
  revert i n k. induction l as [|a0 l IH]; intros i n k Hk.
  - destruct k; discriminate.
  - rewrite mapiM_cons. cbn [fst]. destruct k as [|k]; cbn in Hk |- *.
    + injection Hk as ->. exists n. rewrite Nat.add_0_r. reflexivity.
    + destruct (IH (S i) (snd (f a0 i n)) k Hk) as [n' Hn'].
      exists n'. rewrite Hn'.
      replace (i + S k)%nat with (S i + k)%nat by lia. reflexivity.
Qed.

Lemma mapiM_nth_none (i : nat) (l : list A) (n k : nat) :
  nth_error l k = None -> nth_error (fst (mapiM f i l n)) k = None.
Proof.
  intros H. apply nth_error_None. rewrite mapiM_length.
  apply nth_error_None. exact H.
Qed.

(** A projection of the results that does not depend on the draws is a
    plain indexed map. *)
Lemma mapiM_map_const {C : Type} (g : B -> C) (h : A -> C)
    (Hg : forall a i n, g (fst (f a i n)) = h a)
    (i : nat) (l : list A) (n : nat) :
  map g (fst (mapiM f i l n)) = map h l.
Proof.
  revert i n. induction l as [|a0 l IH]; intros i n; [reflexivity|].
  rewrite mapiM_cons. cbn [fst map]. rewrite IH, Hg. reflexivity.
Qed.

End MapiM.

(** ** The memo *)

Section PhotoData.

Variable rng : nat -> R.

(** The entry the memo builds at index [k] from the url [u], when the
    draws start at [n] and the list has [len] urls. *)
Lemma photoData_nth (urls : list string) (n k : nat) :
  nth_error (fst (photoData rng urls n)) k =
  option_map
    (fun u =>
       mkPhoto u
         (generateTreePhotoPosition (INR k)
            (INR (Nat.min (List.length urls) maxCards)))
         (fst (generateGalaxyPhotoPosition rng (n + 3 * k)%nat)))
    (nth_error (firstn maxCards urls) k).
Proof.
  unfold photoData.
  rewrite (mapiM_nth_fixed _ 3); [|reflexivity].
  cbn [Nat.add]. reflexivity.
Qed.

Lemma photoData_length (urls : list string) (n : nat) :
  List.length (fst (photoData rng urls n)) =
  Nat.min (List.length urls) maxCards.
Proof.
  unfold photoData. rewrite mapiM_length, length_firstn. apply Nat.min_comm.
Qed.

Lemma photoData_counter (urls : list string) (n : nat) :
  snd (photoData rng urls n) =
  (n + 3 * Nat.min (List.length urls) maxCards)%nat.
Proof.
  unfold photoData.
  rewrite (mapiM_counter_fixed _ 3); [|reflexivity].
  rewrite length_firstn, Nat.min_comm. reflexivity.
Qed.

Lemma photoData_urls (urls : list string) (n : nat) :
  map url (fst (photoData rng urls n)) = firstn maxCards urls.
Proof.
  unfold photoData.
  rewrite (mapiM_map_const _ url (fun u => u)); [apply map_id | reflexivity].
Qed.

End PhotoData.

(** ** Reconciliation *)

Section Reconcile.

Variable rng : nat -> R.
Variable old : list CardData.

(** [x || 0] is [x]. *)
Lemma or_num_zero (v : R) : Js.or_num v 0 = v.
Proof. unfold Js.or_num. destruct (Req_dec_T v 0); congruence. Qed.

Lemma or_num_truthy (v d : R) : v <> 0 -> Js.or_num v d = v.
Proof. unfold Js.or_num. destruct (Req_dec_T v 0); congruence. Qed.

Lemma or_num_falsy (d : R) : Js.or_num 0 d = d.
Proof. unfold Js.or_num. destruct (Req_dec_T 0 0); congruence. Qed.

(** The fields of a reconciled card that no draw reaches. *)
Lemma reconcileCard_fields (photo : Photo) (i n : nat) :
  let existing := nth_error old i in
  let card := fst (fst (reconcileCard rng old photo i n)) in
  treePosition card = photoTreePosition photo /\
  galaxyPosition card = photoGalaxyPosition photo /\
  position card =
    Js.opt_or_obj existing position (Vec.ofTriple (photoTreePosition photo)) /\
  velocity card = Js.opt_or_obj existing velocity (mkVector3 0 0 0) /\
  scale card = Js.opt_or_num existing scale initialScale /\
  scaleVelocity card = Js.opt_or_num existing scaleVelocity 0 /\
  texture card =
    (if urlChanged existing (url photo) then None
     else match existing with Some e => texture e | None => None end) /\
  textureUrl card = url photo.
Proof.
  cbv zeta. unfold reconcileCard, bind, ret.
  destruct (initialTime rng (nth_error old i) n) as [t n']. cbn [fst snd].
  repeat split; reflexivity.
Qed.

(** The phase of a card that exists with a non-zero phase is kept. *)
Lemma reconcileCard_time_kept (photo : Photo) (i n : nat) (e : CardData) :
  nth_error old i = Some e -> time e <> 0 ->
  time (fst (fst (reconcileCard rng old photo i n))) = time e.
Proof.
  intros He Ht. unfold reconcileCard, bind, ret, initialTime. rewrite He.
  destruct (Req_dec_T (time e) 0) as [E|_]; [contradiction|]. reflexivity.
Qed.

(** The phase of a card at a fresh index is the next draw times [2 * PI]. *)
Lemma reconcileCard_time_fresh (photo : Photo) (i n : nat) :
  nth_error old i = None ->
  time (fst (fst (reconcileCard rng old photo i n))) = rng n * PI * 2.
Proof.
  intros He. unfold reconcileCard, bind, ret, initialTime. rewrite He.
  reflexivity.
Qed.

(** The load a reconciled card starts: one for its index and url exactly
    when it has no texture. *)
Lemma reconcileCard_request (photo : Photo) (i n : nat) :
  snd (fst (reconcileCard rng old photo i n)) =
  match texture (fst (fst (reconcileCard rng old photo i n))) with
  | None => Some (mkLoadRequest i (url photo))
  | Some _ => None
  end.
Proof.
  unfold reconcileCard, bind, ret.
  destruct (initialTime rng (nth_error old i) n) as [t n']. reflexivity.
Qed.

Lemma reconcile_eq (pd : list Photo) (n : nat) :
  reconcile rng old pd n =
  (map fst (fst (mapiM (reconcileCard rng old) 0 pd n)),
   requestsOf (fst (mapiM (reconcileCard rng old) 0 pd n)),
   snd (mapiM (reconcileCard rng old) 0 pd n)).
Proof.
  unfold reconcile, bind, ret.
  destruct (mapiM (reconcileCard rng old) 0 pd n) as [r n']. reflexivity.
Qed.

Lemma reconcile_length (pd : list Photo) (n : nat) :
  List.length (fst (fst (reconcile rng old pd n))) = List.length pd.
Proof.
  rewrite reconcile_eq. cbn [fst]. rewrite length_map. apply mapiM_length.
Qed.

Lemma reconcile_nth (pd : list Photo) (n k : nat) (photo : Photo) :
  nth_error pd k = Some photo ->
  exists n' : nat,
    nth_error (fst (fst (reconcile rng old pd n))) k =
    Some (fst (fst (reconcileCard rng old photo k n'))).
Proof.
  intros Hk. rewrite reconcile_eq. cbn [fst].
  destruct (mapiM_nth_some (reconcileCard rng old) 0 pd n k photo Hk)
    as [n' Hn'].
  exists n'. rewrite nth_error_map, Hn'. reflexivity.
Qed.

Lemma reconcile_urls (pd : list Photo) (n : nat) :
  map textureUrl (fst (fst (reconcile rng old pd n))) = map url pd.
Proof.
  rewrite reconcile_eq. cbn [fst]. rewrite map_map.
  apply mapiM_map_const. intros photo i m.
  apply (reconcileCard_fields photo i m).
Qed.

Lemma render_eq (photos : option (list string)) (n : nat) :
  render rng old photos n =
  reconcile rng old (fst (photoData rng (photoUrls photos) n))
    (snd (photoData rng (photoUrls photos) n)).
Proof.
  unfold render, bind.
  destruct (photoData rng (photoUrls photos) n) as [pd n']. reflexivity.
Qed.

Lemma render_length (photos : option (list string)) (n : nat) :
  List.length (fst (fst (render rng old photos n))) =
  Nat.min (List.length (photoUrls photos)) maxCards.
Proof. rewrite render_eq, reconcile_length. apply photoData_length. Qed.

Lemma render_urls (photos : option (list string)) (n : nat) :
  map textureUrl (fst (fst (render rng old photos n))) =
  firstn maxCards (photoUrls photos).
Proof. rewrite render_eq, reconcile_urls. apply photoData_urls. Qed.

End Reconcile.

(** C9.  After a render the store has [min (length of the effective list)
    12] cards, whose urls are the first twelve of the effective list in
    order; the effective list is the supplied one when it is not empty and
    the constant default list when it is missing or empty; no card has an
    index of twelve or more. *)
Theorem card_count_and_order (rng : nat -> R) (old : list CardData)
    (photos : option (list string)) (n : nat) :
  let cards := fst (fst (render rng old photos n)) in
  let effective := photoUrls photos in
  List.length cards = Nat.min (List.length effective) 12 /\
  map textureUrl cards = firstn 12 effective /\
  (forall i : nat, (12 <= i)%nat -> nth_error cards i = None) /\
  (forall i : nat, (i < Nat.min (List.length effective) 12)%nat ->
     option_map textureUrl (nth_error cards i) = nth_error effective i) /\
  effective =
    match photos with
    | None | Some [] => PERMANENT_PHOTOS
    | Some l => l
    end.
Proof.
  cbv zeta.
  pose proof (render_length rng old photos n) as Hlen.
  pose proof (render_urls rng old photos n) as Hurl.
  unfold maxCards in Hlen, Hurl.
  split; [exact Hlen|]. split; [exact Hurl|]. split; [|split].
  - intros i Hi. apply nth_error_None. rewrite Hlen. lia.
  - intros i Hi. rewrite <- nth_error_map, Hurl, nth_error_firstn.
    destruct (Nat.ltb_spec i 12); [reflexivity | lia].
  - destruct photos as [[|u l]|]; reflexivity.
Qed.

Lemma card_count_and_order_witness :
  let photos :=
    Some ["p0"; "p1"; "p2"; "p3"; "p4"; "p5"; "p6"; "p7"; "p8"; "p9";
          "p10"; "p11"; "p12"]%string in
  let cards := fst (fst (render (fun _ => 1 / 2) [] photos 0%nat)) in
  let effective := photoUrls photos in
  List.length cards = Nat.min (List.length effective) 12 /\
  map textureUrl cards = firstn 12 effective /\
  (forall i : nat, (12 <= i)%nat -> nth_error cards i = None) /\
  (forall i : nat, (i < Nat.min (List.length effective) 12)%nat ->
     option_map textureUrl (nth_error cards i) = nth_error effective i) /\
  effective =
    match photos with
    | None | Some [] => PERMANENT_PHOTOS
    | Some l => l
    end.
Proof.
  exact (card_count_and_order (fun _ => 1 / 2) []
           (Some ["p0"; "p1"; "p2"; "p3"; "p4"; "p5"; "p6"; "p7"; "p8"; "p9";
                  "p10"; "p11"; "p12"]%string) 0%nat).
Defined.

(** ** A render, card by card *)

Section Render.

Variable rng : nat -> R.
Variable old : list CardData.
Variable photos : option (list string).
Variable n : nat.

(** The card a render leaves at index [k], where the effective list has
    the url [u]: layout targets from the memo of this render, kinematic
    state from the card the store had at [k], texture kept only when the
    url recorded there is [u]. *)
Lemma render_card (k : nat) (u : string) :
  nth_error (firstn maxCards (photoUrls photos)) k = Some u ->
  exists c : CardData,
    nth_error (fst (fst (render rng old photos n))) k = Some c /\
    textureUrl c = u /\
    treePosition c =
      generateTreePhotoPosition (INR k)
        (INR (Nat.min (List.length (photoUrls photos)) maxCards)) /\
    galaxyPosition c = fst (generateGalaxyPhotoPosition rng (n + 3 * k)%nat) /\
    position c =
      Js.opt_or_obj (nth_error old k) position (Vec.ofTriple (treePosition c)) /\
    velocity c = Js.opt_or_obj (nth_error old k) velocity (mkVector3 0 0 0) /\
    scale c = Js.opt_or_num (nth_error old k) scale initialScale /\
    scaleVelocity c = Js.opt_or_num (nth_error old k) scaleVelocity 0 /\
    texture c =
      (if urlChanged (nth_error old k) u then None
       else match nth_error old k with Some e => texture e | None => None end) /\
    (forall e : CardData,
       nth_error old k = Some e -> time e <> 0 -> time c = time e).
Proof.
  intros Hu. rewrite render_eq.
  pose proof (photoData_nth rng (photoUrls photos) n k) as Hpd.
  rewrite Hu in Hpd. cbn [option_map] in Hpd.
  destruct (reconcile_nth rng old _ (snd (photoData rng (photoUrls photos) n))
              k _ Hpd) as [n' Hn'].
  eexists. split; [exact Hn'|].
  match goal with
  | |- context [reconcileCard rng old ?p k n'] =>
      pose proof (reconcileCard_fields rng old p k n') as F;
      pose proof (reconcileCard_time_kept rng old p k n') as T
  end.
  cbv zeta in F. cbn [url photoTreePosition photoGalaxyPosition] in F.
  destruct F as (F1 & F2 & F3 & F4 & F5 & F6 & F7 & F8).
  rewrite F1. repeat split; assumption.
Qed.

(** The loads a render starts are those of the cards it leaves without a
    texture, each for the url of its card. *)
Lemma requestsOf_In (l : list (CardData * option LoadRequest))
    (r : LoadRequest) :
  In r (requestsOf l) <->
  exists (k : nat) (c : CardData), nth_error l k = Some (c, Some r).
Proof.
  induction l as [|[c [r0|]] l IH]; cbn [requestsOf].
  - split; [intros [] | intros (k & c & H); destruct k; discriminate].
  - cbn [In]. rewrite IH. split.
    + intros [->|(k & c' & H)]; [exists 0%nat, c; reflexivity|].
      exists (S k), c'. exact H.
    + intros ([|k] & c' & H); cbn in H.
      * left. congruence.
      * right. exists k, c'. exact H.
  - rewrite IH. split.
    + intros (k & c' & H). exists (S k), c'. exact H.
    + intros ([|k] & c' & H); cbn in H; [discriminate|].
      exists k, c'. exact H.
Qed.

Lemma reconcile_requests (pd : list Photo) (m : nat) (r : LoadRequest) :
  In r (snd (fst (reconcile rng old pd m))) <->
  exists (photo : Photo) (c : CardData),
    nth_error pd (reqIndex r) = Some photo /\
    reqUrl r = url photo /\
    nth_error (fst (fst (reconcile rng old pd m))) (reqIndex r) = Some c /\
    texture c = None.
Proof.
  rewrite reconcile_eq. cbn [fst snd]. rewrite requestsOf_In.
  set (l := fst (mapiM (reconcileCard rng old) 0 pd m)).
  assert (Hl : forall k photo, nth_error pd k = Some photo ->
            exists n', nth_error l k =
                       Some (fst (reconcileCard rng old photo k n'))).
  { intros k photo Hk.
    exact (mapiM_nth_some (reconcileCard rng old) 0 pd m k photo Hk). }
  split.
  - intros (k & c & Hk).
    assert (Hlt : (k < List.length pd)%nat).
    { unfold l in Hk. rewrite <- (mapiM_length (reconcileCard rng old) 0 pd m).
      apply nth_error_Some. congruence. }
    destruct (nth_error pd k) as [photo|] eqn:Ep;
      [|apply nth_error_None in Ep; lia].
    destruct (Hl k photo Ep) as [n' Hn']. rewrite Hk in Hn'.
    injection Hn' as Hn'.
    pose proof (reconcileCard_request rng old photo k n') as Hr.
    rewrite <- Hn' in Hr. cbn [fst snd] in Hr.
    destruct (texture c) eqn:Et; [discriminate|]. injection Hr as ->.
    cbn [reqIndex reqUrl]. exists photo, c. rewrite Ep.
    rewrite nth_error_map, Hk. auto.
  - intros (photo & c & Hp & Hu & Hc & Ht).
    destruct (Hl _ photo Hp) as [n' Hn'].
    rewrite nth_error_map, Hn' in Hc. cbn [option_map] in Hc.
    injection Hc as Hc.
    pose proof (reconcileCard_request rng old photo (reqIndex r) n') as Hr.
    rewrite Hc, Ht, <- Hu in Hr.
    exists (reqIndex r), c. rewrite Hn'. f_equal.
    destruct (fst (reconcileCard rng old photo (reqIndex r) n')) as [c' o].
    cbn [fst snd] in Hc, Hr. subst. destruct r; reflexivity.
Qed.

Lemma render_requests (r : LoadRequest) :
  In r (snd (fst (render rng old photos n))) <->
  exists c : CardData,
    nth_error (firstn maxCards (photoUrls photos)) (reqIndex r)
      = Some (reqUrl r) /\
    nth_error (fst (fst (render rng old photos n))) (reqIndex r) = Some c /\
    texture c = None.
Proof.
  rewrite render_eq, reconcile_requests.
  rewrite <- (photoData_urls rng (photoUrls photos) n), nth_error_map.
  split.
  - intros (photo & c & Hp & Hu & Hc & Ht). exists c. rewrite Hp.
    cbn [option_map]. rewrite Hu. auto.
  - intros (c & Hu & Hc & Ht).
    destruct (nth_error (fst (photoData rng (photoUrls photos) n)) (reqIndex r))
      as [photo|]; [|discriminate].
    cbn [option_map] in Hu. injection Hu as Hu.
    exists photo, c. auto.
Qed.

End Render.

(** ** Texture completions *)

Section Completion.

Lemma onLoad_hit (req : LoadRequest) (tex : Texture) (cards : list CardData)
    (c : CardData) :
  nth_error cards (reqIndex req) = Some c ->
  nth_error (onLoad req tex cards) (reqIndex req) =
  Some (setTextureUrl
          (setTexture c
             (Some match image tex with
                   | Some img => applyTextureCover tex (width img) (height img)
                   | None => tex
                   end))
          (reqUrl req)).
Proof.
  intros Hc. unfold onLoad. rewrite Hc.
  apply nth_error_set_nth_eq. apply nth_error_Some. congruence.
Qed.

Lemma onError_hit (req : LoadRequest) (cards : list CardData) (c : CardData) :
  nth_error cards (reqIndex req) = Some c ->
  nth_error (onError req cards) (reqIndex req) =
  Some (setTexture c (Some (placeholderTex (reqIndex req)))).
Proof.
  intros Hc. unfold onError. rewrite Hc.
  apply nth_error_set_nth_eq. apply nth_error_Some. congruence.
Qed.

Lemma complete_miss (req : LoadRequest) (comp : Completion)
    (cards : list CardData) :
  nth_error cards (reqIndex req) = None -> complete req comp cards = cards.
Proof.
  intros Hc. destruct comp; cbn [complete]; unfold onLoad, onError;
    rewrite Hc; reflexivity.
Qed.

Lemma complete_other (req : LoadRequest) (comp : Completion)
    (cards : list CardData) (j : nat) :
  j <> reqIndex req ->
  nth_error (complete req comp cards) j = nth_error cards j.
Proof.
  intros Hj. destruct comp; cbn [complete]; unfold onLoad, onError;
    destruct (nth_error cards (reqIndex req)); try reflexivity;
    apply nth_error_set_nth_ne; congruence.
Qed.

End Completion.

(** C2, as the code has it.  A completion writes its result exactly when a
    card exists at the index of its request in the store that is current
    at completion time, whatever source identifier that card has by then:
    a success stores the delivered texture (cover-fitted when it carries an
    image) and sets the recorded url to the url of the request, a failure
    stores the placeholder of that index; no other field and no other card
    is written, and without a card at that index the store is unchanged. *)
Theorem completion_writes_iff_card_exists (req : LoadRequest)
    (comp : Completion) (cards : list CardData) :
  (forall c : CardData,
     nth_error cards (reqIndex req) = Some c ->
     exists c' : CardData,
       nth_error (complete req comp cards) (reqIndex req) = Some c' /\
       texture c' =
         Some match comp with
              | Loaded tex =>
                  match image tex with
                  | Some img => applyTextureCover tex (width img) (height img)
                  | None => tex
                  end
              | Failed => placeholderTex (reqIndex req)
              end /\
       textureUrl c' =
         match comp with
         | Loaded _ => reqUrl req
         | Failed => textureUrl c
         end /\
       treePosition c' = treePosition c /\
       galaxyPosition c' = galaxyPosition c /\
       position c' = position c /\ velocity c' = velocity c /\
       scale c' = scale c /\ scaleVelocity c' = scaleVelocity c /\
       time c' = time c) /\
  (nth_error cards (reqIndex req) = None ->
   complete req comp cards = cards) /\
  (forall j : nat,
     j <> reqIndex req ->
     nth_error (complete req comp cards) j = nth_error cards j).
Proof.
  split; [|split].
  - intros c Hc. destruct comp as [tex|]; cbn [complete].
    + eexists. split; [apply onLoad_hit; exact Hc|].
      cbn. repeat split; reflexivity.
    + eexists. split; [apply onError_hit; exact Hc|].
      cbn. repeat split; reflexivity.
  - apply complete_miss.
  - intros j Hj. apply complete_other. exact Hj.
Qed.

Lemma singleton_of_nth {A : Type} (l : list A) (a : A) :
  List.length l = 1%nat -> nth_error l 0 = Some a -> l = [a].
Proof.
  destruct l as [|b [|b' l]]; cbn; intros Hl Hn; try discriminate.
  congruence.
Qed.

(** C2, the claim as written fails: the load of "a.jpg" resolves after its
    card has become the card of "b.jpg" and after the texture of "b.jpg"
    has arrived; it is not discarded, it replaces that texture and sets the
    recorded url back to "a.jpg". *)
Lemma stale_completion_overwrites :
  In StaleLoad.reqA (snd (fst StaleLoad.first)) /\
  In StaleLoad.reqB (snd (fst StaleLoad.second)) /\
  map textureUrl (fst (fst StaleLoad.second)) = [StaleLoad.urlB] /\
  map texture (fst (fst StaleLoad.second)) = [None] /\
  map textureUrl StaleLoad.afterB = [StaleLoad.urlB] /\
  map texture StaleLoad.afterB = [Some (StaleLoad.texOf StaleLoad.urlB)] /\
  map textureUrl StaleLoad.afterStaleA = [StaleLoad.urlA] /\
  map texture StaleLoad.afterStaleA
    = [Some (StaleLoad.texOf StaleLoad.urlA)] /\
  StaleLoad.afterStaleA <> StaleLoad.afterB.
Proof.
  (* the first render: one card for "a.jpg", without texture *)
  destruct (render_card StaleLoad.rng [] (Some [StaleLoad.urlA]) 0 0
              StaleLoad.urlA eq_refl)
    as (c1 & N1 & U1 & _ & _ & _ & _ & _ & _ & T1 & _).
  fold StaleLoad.first in N1. cbn in T1.
  (* the second render: the card at 0 is now the card of "b.jpg" *)
  destruct (render_card StaleLoad.rng (fst (fst StaleLoad.first))
              (Some [StaleLoad.urlB]) (snd StaleLoad.first) 0
              StaleLoad.urlB eq_refl)
    as (c2 & N2 & U2 & _ & _ & _ & _ & _ & _ & T2 & _).
  fold StaleLoad.second in N2. rewrite N1 in T2.
  unfold urlChanged in T2. rewrite U1 in T2. cbn in T2.
  assert (L2 : fst (fst StaleLoad.second) = [c2]).
  { apply singleton_of_nth; [|exact N2].
    unfold StaleLoad.second. rewrite render_length. reflexivity. }
  assert (RA : In StaleLoad.reqA (snd (fst StaleLoad.first))).
  { apply render_requests. exists c1. cbn [StaleLoad.reqA reqIndex reqUrl].
    split; [reflexivity|]. split; [exact N1 | exact T1]. }
  assert (RB : In StaleLoad.reqB (snd (fst StaleLoad.second))).
  { apply render_requests. exists c2. cbn [StaleLoad.reqB reqIndex reqUrl].
    split; [reflexivity|]. split; [exact N2 | exact T2]. }
  assert (LB : StaleLoad.afterB =
               [setTextureUrl
                  (setTexture c2 (Some (StaleLoad.texOf StaleLoad.urlB)))
                  StaleLoad.urlB]).
  { unfold StaleLoad.afterB. rewrite L2. reflexivity. }
  assert (LA : StaleLoad.afterStaleA =
               [setTextureUrl
                  (setTexture
                     (setTextureUrl
                        (setTexture c2 (Some (StaleLoad.texOf StaleLoad.urlB)))
                        StaleLoad.urlB)
                     (Some (StaleLoad.texOf StaleLoad.urlA)))
                  StaleLoad.urlA]).
  { unfold StaleLoad.afterStaleA. rewrite LB. reflexivity. }
  split; [exact RA|]. split; [exact RB|].
  rewrite LA, LB, L2. cbn [map textureUrl texture setTexture setTextureUrl].
  rewrite U2, T2. repeat split; try reflexivity.
  intros E. injection E as E. discriminate E.
Qed.

Lemma completion_writes_iff_card_exists_witness :
  let req := StaleLoad.reqA in
  let comp := Loaded (StaleLoad.texOf StaleLoad.urlA) in
  let cards := StaleLoad.afterB in
  (forall c : CardData,
     nth_error cards (reqIndex req) = Some c ->
     exists c' : CardData,
       nth_error (complete req comp cards) (reqIndex req) = Some c' /\
       texture c' = Some (StaleLoad.texOf StaleLoad.urlA) /\
       textureUrl c' = reqUrl req /\
       treePosition c' = treePosition c /\
       galaxyPosition c' = galaxyPosition c /\
       position c' = position c /\ velocity c' = velocity c /\
       scale c' = scale c /\ scaleVelocity c' = scaleVelocity c /\
       time c' = time c) /\
  (nth_error cards (reqIndex req) = None ->
   complete req comp cards = cards) /\
  (forall j : nat,
     j <> reqIndex req ->
     nth_error (complete req comp cards) j = nth_error cards j).
Proof.
  exact (completion_writes_iff_card_exists StaleLoad.reqA
           (Loaded (StaleLoad.texOf StaleLoad.urlA)) StaleLoad.afterB).
Defined.

(** ** The initial scale *)

(** C3, the claim as written fails.  A card created at a fresh index gets
    the scale 0.4, which is the ambient target scale and so not strictly
    below it; and a card whose source changed keeps the scale it had (here
    5, the focused target), it is not given the initial scale. *)
Lemma initial_scale_not_below_every_target :
  let fresh := mkPhoto "a.jpg" (0, 0, 0) (0, 0, 0) in
  let created := fst (fst (reconcileCard (fun _ => 1 / 2) [] fresh 0 0%nat)) in
  let shown :=
    mkCardData (0, 0, 0) (0, 0, 0) (mkVector3 0 0 0.8) (mkVector3 0 0 0)
      5 0 None "a.jpg" 1 in
  let replaced :=
    fst (fst (reconcileCard (fun _ => 1 / 2) [shown]
                (mkPhoto "b.jpg" (0, 0, 0) (0, 0, 0)) 0 0%nat)) in
  (urlChanged (nth_error [] 0) (url fresh) = true /\
   scale created = 0.4 /\
   targetScale None 0 = 0.4 /\
   ~ scale created < targetScale None 0) /\
  (urlChanged (nth_error [shown] 0) "b.jpg" = true /\
   scale replaced = 5 /\
   scale replaced <> initialScale /\
   ~ scale replaced < targetScale (Some 0%Z) 0).
Proof.
  cbv zeta. split.
  - pose proof (reconcileCard_fields (fun _ => 1 / 2) []
                  (mkPhoto "a.jpg" (0, 0, 0) (0, 0, 0)) 0 0)
      as (_ & _ & _ & _ & S & _).
    cbn [nth_error Js.opt_or_num] in S. rewrite S.
    unfold initialScale, targetScale, isFocused, ambientScale.
    repeat split; try reflexivity. lra.
  - pose proof (reconcileCard_fields (fun _ => 1 / 2)
                  [mkCardData (0, 0, 0) (0, 0, 0) (mkVector3 0 0 0.8)
                     (mkVector3 0 0 0) 5 0 None "a.jpg" 1]
                  (mkPhoto "b.jpg" (0, 0, 0) (0, 0, 0)) 0 0)
      as (_ & _ & _ & _ & S & _).
    cbn [nth_error Js.opt_or_num scale] in S.
    rewrite or_num_truthy in S by lra. rewrite S.
    unfold initialScale, targetScale, isFocused, focusedScale.
    cbn [Z.of_nat Z.eqb].
    repeat split; try reflexivity; lra.
Qed.

(** C3, as the code has it.  A card created at an index where the store
    had none gets the fixed scale 0.4; that value equals the ambient target
    scale and is strictly smaller than the focused target scale, so it is
    at most every target scale.  A card at an index where the store had a
    card of non-zero scale keeps that scale, whether or not its source
    changed. *)
Theorem new_card_initial_scale (rng : nat -> R) (old : list CardData)
    (pd : list Photo) (n i : nat) (photo : Photo) :
  nth_error pd i = Some photo ->
  exists card : CardData,
    nth_error (fst (fst (reconcile rng old pd n))) i = Some card /\
    (nth_error old i = None -> scale card = 0.4) /\
    (forall e : CardData,
       nth_error old i = Some e -> scale e <> 0 -> scale card = scale e) /\
    initialScale = 0.4 /\
    initialScale = ambientScale /\
    initialScale < focusedScale /\
    (forall (focusedIndex : option Z) (j : nat),
       initialScale <= targetScale focusedIndex j).
Proof.
  intros Hp. destruct (reconcile_nth rng old pd n i photo Hp) as [n' Hn'].
  eexists. split; [exact Hn'|].
  pose proof (reconcileCard_fields rng old photo i n')
    as (_ & _ & _ & _ & S & _).
  rewrite S. unfold initialScale, ambientScale, focusedScale.
  split; [|split; [|split; [|split; [|split]]]].
  - intros ->. reflexivity.
  - intros e -> He. cbn. apply or_num_truthy. exact He.
  - reflexivity.
  - reflexivity.
  - lra.
  - intros f j. unfold targetScale, focusedScale, ambientScale.
    destruct (isFocused f j); lra.
Qed.

Lemma new_card_initial_scale_witness :
  let photo := mkPhoto "a.jpg" (0, 0, 0) (0, 0, 0) in
  exists card : CardData,
    nth_error (fst (fst (reconcile (fun _ => 1 / 2) [] [photo] 0%nat))) 0
      = Some card /\
    (nth_error (@nil CardData) 0 = None -> scale card = 0.4) /\
    (forall e : CardData,
       nth_error [] 0 = Some e -> scale e <> 0 -> scale card = scale e) /\
    initialScale = 0.4 /\
    initialScale = ambientScale /\
    initialScale < focusedScale /\
    (forall (focusedIndex : option Z) (j : nat),
       initialScale <= targetScale focusedIndex j).
Proof.
  apply (new_card_initial_scale (fun _ => 1 / 2) []
           [mkPhoto "a.jpg" (0, 0, 0) (0, 0, 0)] 0 0
           (mkPhoto "a.jpg" (0, 0, 0) (0, 0, 0))).
  reflexivity.
Defined.

(** ** Draws never go back *)

Section Counter.

Variable rng : nat -> R.

Lemma mapiM_counter_le {A B : Type} (f : A -> nat -> Rand B)
    (Hf : forall a i n, (n <= snd (f a i n))%nat)
    (i : nat) (l : list A) (n : nat) :
  (n <= snd (mapiM f i l n))%nat.
Proof.
  revert i n. induction l as [|a l IH]; intros i n; [cbn; lia|].
  rewrite mapiM_cons. cbn [snd].
  specialize (IH (S i) (snd (f a i n))). specialize (Hf a i n). lia.
Qed.

Lemma reconcileCard_counter_le (old : list CardData) (photo : Photo)
    (i n : nat) :
  (n <= snd (reconcileCard rng old photo i n))%nat.
Proof.
  unfold reconcileCard, bind, ret, initialTime, random.
  destruct (nth_error old i) as [e|]; [|cbn; lia].
  destruct (Req_dec_T (time e) 0); cbn; lia.
Qed.

Lemma render_counter_ge (old : list CardData) (photos : option (list string))
    (n : nat) :
  (n + 3 * Nat.min (List.length (photoUrls photos)) maxCards
   <= snd (render rng old photos n))%nat.
Proof.
  rewrite render_eq, reconcile_eq. cbn [snd].
  rewrite <- (photoData_counter rng).
  apply mapiM_counter_le. intros a i m. apply reconcileCard_counter_le.
Qed.

End Counter.

(** ** Replacing one source *)

Section ReplaceOneSource.

Lemma nth_error_set_nth (A : Type) (k i : nat) (v : A) (l : list A) :
  (k < List.length l)%nat ->
  nth_error (Js.set_nth k v l) i =
  if Nat.eqb k i then Some v else nth_error l i.
Proof.
  intros Hk. destruct (Nat.eqb_spec k i) as [<-|Hne].
  - apply nth_error_set_nth_eq. exact Hk.
  - apply nth_error_set_nth_ne. exact Hne.
Qed.

Lemma photoUrls_nonempty (l : list string) :
  (0 < List.length l)%nat -> photoUrls (Some l) = l.
Proof. destruct l; cbn; [lia | reflexivity]. Qed.

(** One frame of the run [ReplaceOne], with card 1 focused, moves the scale
    of card 1 from 0.4 to 0.4 + 138 * 0.033 * 0.033. *)
Lemma stepCard_scale_focused (c : CardData) :
  scale c = 0.4 -> scaleVelocity c = 0 ->
  scale (stepCard tree (Some 1%Z) (Rmin 1 maxDt) 1 c) = 0.550282.
Proof.
  intros Hs Hv. unfold stepCard. cbv zeta. cbn [scale].
  rewrite Hs, Hv.
  replace (Rmin 1 maxDt) with 0.033
    by (symmetry; apply Rmin_right; unfold maxDt; lra).
  unfold targetScale, isFocused. cbn [Z.of_nat Z.eqb Pos.of_succ_nat Pos.eqb].
  unfold SCALE_STIFFNESS, SCALE_DAMPING, focusedScale. lra.
Qed.

End ReplaceOneSource.

(** C1, the claim as written fails.  In the run [ReplaceOne] the source of
    card 1 is replaced.  Card 0, whose source is unchanged, gets a galaxy
    position drawn anew (its third coordinate goes from -4 to 0); card 1,
    whose source changed, is not reset: it keeps its position, its velocity
    and its scale, which is not the initial scale. *)
Lemma replace_one_regenerates_galaxy_keeps_changed_card :
  exists c0 c1 c0' c1' : CardData,
    nth_error ReplaceOne.framed 0 = Some c0 /\
    nth_error ReplaceOne.framed 1 = Some c1 /\
    nth_error (fst (fst ReplaceOne.second)) 0 = Some c0' /\
    nth_error (fst (fst ReplaceOne.second)) 1 = Some c1' /\
    (textureUrl c0 = ReplaceOne.urlA /\ textureUrl c0' = ReplaceOne.urlA /\
     snd (galaxyPosition c0) = -4 /\ snd (galaxyPosition c0') = 0 /\
     galaxyPosition c0' <> galaxyPosition c0) /\
    (textureUrl c1 = ReplaceOne.urlB /\ textureUrl c1' = ReplaceOne.urlC /\
     position c1' = position c1 /\ velocity c1' = velocity c1 /\
     scale c1' = scale c1 /\ scale c1' = 0.550282 /\
     scale c1' <> initialScale).
Proof.
  (* the first render, from an empty store *)
  destruct (render_card ReplaceOne.rng []
              (Some [ReplaceOne.urlA; ReplaceOne.urlB])
              0 0 ReplaceOne.urlA eq_refl)
    as (a0 & Na0 & Ua0 & _ & Ga0 & _ & _ & _ & _ & _ & _).
  destruct (render_card ReplaceOne.rng []
              (Some [ReplaceOne.urlA; ReplaceOne.urlB])
              0 1 ReplaceOne.urlB eq_refl)
    as (a1 & Na1 & Ua1 & _ & _ & _ & _ & Sa1 & Va1 & _ & _).
  fold ReplaceOne.first in Na0, Na1.
  cbn [nth_error Js.opt_or_num] in Sa1, Va1.
  (* the frame *)
  assert (F0 : nth_error ReplaceOne.framed 0 =
               Some (stepCard tree (Some 1%Z) (Rmin 1 maxDt) 0 a0)).
  { unfold ReplaceOne.framed. rewrite useFrame_cards_nth, Na0. reflexivity. }
  assert (F1 : nth_error ReplaceOne.framed 1 =
               Some (stepCard tree (Some 1%Z) (Rmin 1 maxDt) 1 a1)).
  { unfold ReplaceOne.framed. rewrite useFrame_cards_nth, Na1. reflexivity. }
  pose proof (stepCard_scale_focused a1 Sa1 Va1) as S1.
  (* the second render *)
  destruct (render_card ReplaceOne.rng ReplaceOne.framed
              (Some [ReplaceOne.urlA; ReplaceOne.urlC]) (snd ReplaceOne.first)
              0 ReplaceOne.urlA eq_refl)
    as (b0 & Nb0 & Ub0 & _ & Gb0 & _ & _ & _ & _ & _ & _).
  destruct (render_card ReplaceOne.rng ReplaceOne.framed
              (Some [ReplaceOne.urlA; ReplaceOne.urlC]) (snd ReplaceOne.first)
              1 ReplaceOne.urlC eq_refl)
    as (b1 & Nb1 & Ub1 & _ & _ & Pb1 & Wb1 & Sb1 & _ & _ & _).
  fold ReplaceOne.second in Nb0, Nb1.
  rewrite F1 in Pb1, Wb1, Sb1.
  cbn [Js.opt_or_obj Js.opt_or_num] in Pb1, Wb1, Sb1.
  rewrite or_num_truthy in Sb1 by (rewrite S1; lra).
  (* the draws of the two galaxy positions of card 0 *)
  assert (Hn : (6 <= snd ReplaceOne.first)%nat)
    by exact (render_counter_ge ReplaceOne.rng []
                (Some [ReplaceOne.urlA; ReplaceOne.urlB]) 0).
  assert (Hr : forall m : nat, (6 <= m)%nat -> ReplaceOne.rng m = 1 / 2).
  { intros m Hm. unfold ReplaceOne.rng.
    destruct (Nat.ltb_spec m 6); [lia | reflexivity]. }
  assert (Za : snd (galaxyPosition a0) = -4).
  { rewrite Ga0, generateGalaxyPhotoPosition_run. cbv zeta. cbn [fst snd].
    cbn [ReplaceOne.rng Nat.add Nat.mul Nat.ltb Nat.leb].
    replace (2 * 0 - 1) with (-1) by lra.
    rewrite cos_acos by lra. lra. }
  assert (Zb : snd (galaxyPosition b0) = 0).
  { rewrite Gb0, generateGalaxyPhotoPosition_run. cbv zeta. cbn [fst snd].
    rewrite !Hr by lia.
    replace (2 * (1 / 2) - 1) with 0 by lra.
    rewrite cos_acos by lra. lra. }
  exists (stepCard tree (Some 1%Z) (Rmin 1 maxDt) 0 a0),
         (stepCard tree (Some 1%Z) (Rmin 1 maxDt) 1 a1), b0, b1.
  split; [exact F0|]. split; [exact F1|]. split; [exact Nb0|].
  split; [exact Nb1|]. split.
  - cbn [stepCard textureUrl galaxyPosition].
    split; [exact Ua0|]. split; [exact Ub0|]. split; [exact Za|].
    split; [exact Zb|]. intros E. rewrite E, Za in Zb. lra.
  - cbn [stepCard textureUrl].
    split; [exact Ua1|]. split; [exact Ub1|]. split; [exact Pb1|].
    split; [exact Wb1|]. split; [exact Sb1|].
    rewrite Sb1, S1. split; [reflexivity|]. unfold initialScale. lra.
Qed.

(** C1, as the code has it.  The store holds one card per url of a list of
    at most twelve urls, each card recording its url; the url at index [k]
    is replaced and the component renders.  Then every card, the changed
    one included, keeps its position, its velocity and its scale velocity,
    and its scale and its phase when they are not zero; every card gets
    the galaxy position that the memo of this render draws for its index;
    the cards other than [k] keep their url and their texture; the card at
    [k] records the new url, loses its texture, and a load of the new url
    is started for it. *)
Theorem replace_one_source (rng : nat -> R) (old : list CardData)
    (urls : list string) (k : nat) (u' : string) (n : nat) :
  List.length old = List.length urls ->
  (List.length urls <= 12)%nat ->
  (forall (i : nat) (c : CardData),
     nth_error old i = Some c -> nth_error urls i = Some (textureUrl c)) ->
  (k < List.length urls)%nat ->
  nth_error urls k <> Some u' ->
  let r := render rng old (Some (Js.set_nth k u' urls)) n in
  let cards := fst (fst r) in
  List.length cards = List.length old /\
  In (mkLoadRequest k u') (snd (fst r)) /\
  forall (i : nat) (c : CardData),
    nth_error old i = Some c ->
    exists c' : CardData,
      nth_error cards i = Some c' /\
      position c' = position c /\
      velocity c' = velocity c /\
      scaleVelocity c' = scaleVelocity c /\
      (scale c <> 0 -> scale c' = scale c) /\
      (time c <> 0 -> time c' = time c) /\
      galaxyPosition c' =
        fst (generateGalaxyPhotoPosition rng (n + 3 * i)%nat) /\
      (i <> k -> textureUrl c' = textureUrl c /\ texture c' = texture c) /\
      (i = k -> textureUrl c' = u' /\ texture c' = None).
Proof.
  intros Hlen H12 Hsync Hk Hnew. cbv zeta.
  assert (Hl : List.length (Js.set_nth k u' urls) = List.length urls)
    by apply length_set_nth.
  assert (Hp : photoUrls (Some (Js.set_nth k u' urls)) = Js.set_nth k u' urls)
    by (apply photoUrls_nonempty; lia).
  assert (Hf : firstn maxCards (photoUrls (Some (Js.set_nth k u' urls)))
               = Js.set_nth k u' urls).
  { rewrite Hp. apply firstn_all2. unfold maxCards. lia. }
  assert (Hcard : forall (i : nat) (c : CardData),
            nth_error old i = Some c ->
            exists c' : CardData,
              nth_error
                (fst (fst (render rng old (Some (Js.set_nth k u' urls)) n))) i
                = Some c' /\
              position c' = position c /\
              velocity c' = velocity c /\
              scaleVelocity c' = scaleVelocity c /\
              (scale c <> 0 -> scale c' = scale c) /\
              (time c <> 0 -> time c' = time c) /\
              galaxyPosition c' =
                fst (generateGalaxyPhotoPosition rng (n + 3 * i)%nat) /\
              (i <> k ->
               textureUrl c' = textureUrl c /\ texture c' = texture c) /\
              (i = k -> textureUrl c' = u' /\ texture c' = None)).
  { intros i c Hc.
    pose proof (Hsync i c Hc) as Hu.
    assert (Hi : exists u, nth_error (Js.set_nth k u' urls) i = Some u /\
                           (i <> k -> u = textureUrl c) /\
                           (i = k -> u = u' /\ textureUrl c <> u')).
    { rewrite nth_error_set_nth by exact Hk.
      destruct (Nat.eqb_spec k i) as [->|Hne].
      - exists u'. split; [reflexivity|]. split; [congruence|].
        intros _. split; [reflexivity|]. congruence.
      - exists (textureUrl c). split; [exact Hu|]. split; [reflexivity|].
        congruence. }
    destruct Hi as (u & Hi & Hother & Hsame).
    rewrite <- Hf in Hi.
    destruct (render_card rng old _ n i u Hi)
      as (c' & N & U & _ & G & P & V & S & W & T & Ti).
    rewrite Hc in P, V, S, W, T.
    cbn [Js.opt_or_obj Js.opt_or_num] in P, V, S, W.
    rewrite or_num_zero in W. unfold urlChanged in T.
    exists c'. split; [exact N|]. split; [exact P|]. split; [exact V|].
    split; [exact W|]. split; [|split; [|split; [|split]]].
    - intros Hs. rewrite S. apply or_num_truthy. exact Hs.
    - intros Ht. apply (Ti c Hc Ht).
    - exact G.
    - intros Hne. rewrite (Hother Hne) in U, T.
      rewrite String.eqb_refl in T. split; assumption.
    - intros He. destruct (Hsame He) as [-> Hd].
      apply String.eqb_neq in Hd. rewrite Hd in T. split; assumption. }
  split; [|split].
  - rewrite render_length, Hp, Hl. unfold maxCards. lia.
  - destruct (nth_error old k) as [c|] eqn:Ec;
      [|apply nth_error_None in Ec; lia].
    destruct (Hcard k c Ec) as (c' & N & _ & _ & _ & _ & _ & _ & _ & Hch).
    apply render_requests. exists c'. cbn [reqIndex reqUrl].
    rewrite Hf, nth_error_set_nth, Nat.eqb_refl by exact Hk.
    split; [reflexivity|]. split; [exact N|]. apply Hch. reflexivity.
  - exact Hcard.
Qed.

Lemma replace_one_source_witness :
  let a :=
    mkCardData (1, 2, 3) (4, 0, 0) (mkVector3 1 2 3) (mkVector3 0 0 0)
      0.4 0 None "a.jpg" 1 in
  let b :=
    mkCardData (3, 2, 1) (0, 0, 4) (mkVector3 0 0 0.8) (mkVector3 0 0 0)
      5 0 None "b.jpg" 2 in
  let r :=
    render (fun _ => 1 / 2) [a; b]
      (Some (Js.set_nth 1 "c.jpg"%string ["a.jpg"; "b.jpg"]%string)) 0%nat in
  let cards := fst (fst r) in
  List.length cards = List.length [a; b] /\
  In (mkLoadRequest 1 "c.jpg") (snd (fst r)) /\
  forall (i : nat) (c : CardData),
    nth_error [a; b] i = Some c ->
    exists c' : CardData,
      nth_error cards i = Some c' /\
      position c' = position c /\
      velocity c' = velocity c /\
      scaleVelocity c' = scaleVelocity c /\
      (scale c <> 0 -> scale c' = scale c) /\
      (time c <> 0 -> time c' = time c) /\
      galaxyPosition c' =
        fst (generateGalaxyPhotoPosition (fun _ => 1 / 2) (0 + 3 * i)%nat) /\
      (i <> 1%nat -> textureUrl c' = textureUrl c /\ texture c' = texture c) /\
      (i = 1%nat -> textureUrl c' = "c.jpg"%string /\ texture c' = None).
Proof.
  apply (replace_one_source (fun _ => 1 / 2)
           [mkCardData (1, 2, 3) (4, 0, 0) (mkVector3 1 2 3) (mkVector3 0 0 0)
              0.4 0 None "a.jpg" 1;
            mkCardData (3, 2, 1) (0, 0, 4) (mkVector3 0 0 0.8)
              (mkVector3 0 0 0) 5 0 None "b.jpg" 2]
           ["a.jpg"; "b.jpg"]%string 1 "c.jpg"%string 0).
  - reflexivity.
  - cbn. lia.
  - intros [|[|i]] c H; cbn in H;
      [injection H as <-; reflexivity
      |injection H as <-; reflexivity
      |destruct i; discriminate].
  - cbn. lia.
  - cbn. discriminate.
Defined.

(** * Further properties of the component *)

(** ** How many cards there are *)


(** ** Where the tree layout puts the cards *)

(** X2.  For [index < total] the tree position lies inside the cone of the
    tree: its height is strictly between -3 and 4 and its distance from
    the vertical axis strictly between 0.42 and 2.8. *)
Theorem tree_layout_bounds (total i : nat) :
  (i < total)%nat ->
  let '(px, py, pz) := generateTreePhotoPosition (INR i) (INR total) in
  -3 < py < 4 /\ 0.42 < sqrt (px * px + pz * pz) < 2.8.
Proof.
  intros Hi.
  pose proof (tree_axis_distance total i Hi) as D.
  pose proof (treeT_range total i Hi) as Ht.
  rewrite generateTreePhotoPosition_eq in D |- *.
  cbv beta iota zeta in D |- *. rewrite D.
  unfold treeY, treeRadius. lra.
Qed.

Lemma tree_layout_bounds_witness :
  let '(px, py, pz) := generateTreePhotoPosition (INR 3) (INR 10) in
  -3 < py < 4 /\ 0.42 < sqrt (px * px + pz * pz) < 2.8.
Proof. apply (tree_layout_bounds 10 3). lia. Defined.

(** X3.  Two different indices of one list never get the same tree
    position: the heights differ. *)
Theorem tree_positions_distinct (total i j : nat) :
  (0 < total)%nat -> i <> j ->
  generateTreePhotoPosition (INR i) (INR total)
  <> generateTreePhotoPosition (INR j) (INR total).
Proof.
  intros Ht Hij E.
  rewrite !generateTreePhotoPosition_eq in E. cbv zeta in E.
  injection E as _ Ey _.
  assert (Hlt : (i < j)%nat \/ (j < i)%nat) by lia.
  destruct Hlt as [Hlt|Hlt];
    pose proof (treeT_strict total _ _ Hlt Ht) as Hs;
    unfold treeY in Ey; lra.
Qed.

Lemma tree_positions_distinct_witness :
  generateTreePhotoPosition (INR 0) (INR 2)
  <> generateTreePhotoPosition (INR 1) (INR 2).
Proof. apply (tree_positions_distinct 2 0 1); lia. Defined.

(** ** Where the galaxy layout puts the cards *)

Section GalaxyBounds.

Lemma flattened_shell (r s c s' c' : R) :
  0 <= r -> s * s + c * c = 1 -> s' * s' + c' * c' = 1 ->
  let px := r * s * c' in
  let py := r * s * s' * 0.5 in
  let pz := r * c in
  r * r / 4 <= px * px + py * py + pz * pz <= r * r /\
  py * py <= r * r / 4.
Proof.
  intros Hr H1 H2. cbv zeta.
  replace 0.5 with (/ 2) by lra.
  assert (E : r * s * c' * (r * s * c') + r * s * s' * / 2 * (r * s * s' * / 2)
              + r * c * (r * c)
              = r * r * (1 - 3 / 4 * ((s * s) * (s' * s')))).
  { replace (r * r * (1 - 3 / 4 * ((s * s) * (s' * s'))))
      with (r * r * (1 - 3 / 4 * ((s * s) * (s' * s')))
            + r * r * (s * s) * (s' * s' + c' * c' - 1)
            + r * r * (s * s + c * c - 1))
      by (rewrite H1, H2; field).
    field. }
  assert (Hs : 0 <= s * s <= 1) by nra.
  assert (Hs' : 0 <= s' * s' <= 1) by nra.
  assert (Hp : 0 <= (s * s) * (s' * s') <= 1) by nra.
  assert (Hrr : 0 <= r * r) by nra.
  rewrite E. repeat split; nra.
Qed.

End GalaxyBounds.

(** X4.  Whatever the three samples in [[0, 1)], the galaxy position that
    is returned (after flattening) keeps its distance from the origin
    between 2 and 10, and its second coordinate between -5 and 5. *)
Theorem galaxy_position_bounds (rng : nat -> R) (n : nat) :
  0 <= rng n < 1 -> 0 <= rng (S n) < 1 -> 0 <= rng (S (S n)) < 1 ->
  let '(px, py, pz) := fst (generateGalaxyPhotoPosition rng n) in
  2 <= sqrt (px * px + py * py + pz * pz) <= 10 /\ -5 <= py <= 5.
Proof.
  intros H1 H2 H3. rewrite generateGalaxyPhotoPosition_run.
  cbv beta iota zeta. cbn [fst].
  set (r := 4 + rng n * 6).
  set (phi := acos (2 * rng (S (S n)) - 1)).
  set (theta := rng (S n) * PI * 2).
  assert (Hr : 4 <= r < 10) by (unfold r; lra).
  destruct (flattened_shell r (sin phi) (cos phi) (sin theta) (cos theta))
    as [[Hlo Hhi] Hy].
  { lra. }
  { apply sin2_cos2. }
  { apply sin2_cos2. }
  cbv zeta in Hlo, Hhi, Hy.
  set (q := r * sin phi * cos theta * (r * sin phi * cos theta)
            + r * sin phi * sin theta * 0.5 * (r * sin phi * sin theta * 0.5)
            + r * cos phi * (r * cos phi)) in *.
  split.
  - split.
    + replace 2 with (sqrt (2 * 2)) by (apply sqrt_square; lra).
      apply sqrt_le_1_alt. nra.
    + replace 10 with (sqrt (10 * 10)) by (apply sqrt_square; lra).
      apply sqrt_le_1_alt. nra.
  - set (py := r * sin phi * sin theta * 0.5) in *. nra.
Qed.

Lemma galaxy_position_bounds_witness :
  let '(px, py, pz) :=
    fst (generateGalaxyPhotoPosition (fun _ => 1 / 2) 0%nat) in
  2 <= sqrt (px * px + py * py + pz * pz) <= 10 /\ -5 <= py <= 5.
Proof.
  apply (galaxy_position_bounds (fun _ => 1 / 2) 0%nat); lra.
Defined.

(** ** What the cover fit shows *)

(** X5.  For an image of positive size the cropped window, measured in
    pixels of the image, has exactly the aspect of the photo area (so the
    photo is not stretched), it is centred on the centre of the image on
    both axes, one of the two axes is shown in full, and the texture keeps
    its source and its image. *)
Theorem cover_fit_keeps_aspect_and_centre (tex : Texture) (w h : R) :
  0 < w -> 0 < h ->
  let out := applyTextureCover tex w h in
  let '(rx, ry) := repeat out in
  let '(ox, oy) := offset out in
  rx * w / (ry * h) = photoWidth / photoHeight /\
  ox + rx / 2 = 1 / 2 /\ oy + ry / 2 = 1 / 2 /\
  (rx = 1 \/ ry = 1) /\
  source out = source tex /\ image out = image tex.
Proof.
  intros Hw Hh. cbv zeta.
  destruct (Rgt_dec (w / h) (photoWidth / photoHeight)) as [Hgt|Hle].
  - rewrite applyTextureCover_wide by assumption. cbn.
    repeat split; try lra; auto.
    unfold photoWidth, photoHeight. field. lra.
  - rewrite applyTextureCover_tall by assumption. cbn.
    repeat split; try lra; auto.
    unfold photoWidth, photoHeight. field. lra.
Qed.

Lemma cover_fit_keeps_aspect_and_centre_witness :
  let out :=
    applyTextureCover (mkTexture (LoadedFrom "a.jpg") None (1, 1) (0, 0))
      400 300 in
  let '(rx, ry) := repeat out in
  let '(ox, oy) := offset out in
  rx * 400 / (ry * 300) = photoWidth / photoHeight /\
  ox + rx / 2 = 1 / 2 /\ oy + ry / 2 = 1 / 2 /\
  (rx = 1 \/ ry = 1) /\
  source out = LoadedFrom "a.jpg" /\ image out = None.
Proof.
  apply (cover_fit_keeps_aspect_and_centre
           (mkTexture (LoadedFrom "a.jpg") None (1, 1) (0, 0)) 400 300); lra.
Defined.

(** ** The placeholder of a failed load *)

(** X6.  The hue of the placeholder of index [i] is [30 * (i mod 12)], a
    multiple of 30 below 360; two indices get the same placeholder exactly
    when they are equal modulo 12, so the (at most twelve) cards of a list
    get pairwise different placeholders. *)
Theorem placeholder_hues (i j : nat) :
  source (placeholderTex i) = PlaceholderCanvas (30 * (i mod 12)) /\
  ((i * 30) mod 360 < 360)%nat /\
  (placeholderTex i = placeholderTex j <-> i mod 12 = j mod 12) /\
  ((i < 12)%nat -> (j < 12)%nat ->
   placeholderTex i = placeholderTex j -> i = j).
Proof.
  assert (H : forall k : nat, ((k * 30) mod 360 = 30 * (k mod 12))%nat).
  { intros k. change 360%nat with (12 * 30)%nat.
    rewrite Nat.Div0.mul_mod_distr_r. apply Nat.mul_comm. }
  assert (E : placeholderTex i = placeholderTex j <-> i mod 12 = j mod 12).
  { unfold placeholderTex. rewrite !H. split.
    - set (a := (30 * (i mod 12))%nat). set (b := (30 * (j mod 12))%nat).
      intros Heq. assert (Hab : a = b) by congruence.
      unfold a, b in Hab.
      apply Nat.mul_cancel_l in Hab; [exact Hab | discriminate].
    - intros ->. reflexivity. }
  split; [unfold placeholderTex; cbn [source]; rewrite H; reflexivity|].
  split; [apply Nat.mod_upper_bound; lia|].
  split; [exact E|].
  intros Hi Hj Heq. apply E in Heq.
  rewrite !Nat.mod_small in Heq by lia. exact Heq.
Qed.

Lemma placeholder_hues_witness :
  source (placeholderTex 13) = PlaceholderCanvas (30 * (13 mod 12)) /\
  ((13 * 30) mod 360 < 360)%nat /\
  (placeholderTex 13 = placeholderTex 1 <-> 13 mod 12 = 1 mod 12) /\
  ((13 < 12)%nat -> (1 < 12)%nat ->
   placeholderTex 13 = placeholderTex 1 -> 13%nat = 1%nat).
Proof. exact (placeholder_hues 13 1). Defined.

(** ** The focus *)



(** ** The spring at rest *)

(** X8.  A card that sits on its target with no velocity, at its target
    scale with no scale velocity, is left there by a loop iteration with
    any time step: only its phase advances. *)
Theorem spring_rest_is_fixed (state : TreeState) (focusedIndex : option Z)
    (dt : R) (i : nat) (card : CardData) :
  position card = targetPos state focusedIndex i card ->
  velocity card = mkVector3 0 0 0 ->
  scale card = targetScale focusedIndex i ->
  scaleVelocity card = 0 ->
  let card' := stepCard state focusedIndex dt i card in
  position card' = position card /\
  velocity card' = mkVector3 0 0 0 /\
  scale card' = scale card /\
  scaleVelocity card' = 0 /\
  time card' = time card + dt.
Proof.
  intros Hp Hv Hs Hw. cbv zeta.
  assert (Ht : targetPos state focusedIndex i card = position card)
    by (symmetry; exact Hp).
  unfold stepCard. cbv zeta.
  cbn [position velocity scale scaleVelocity time].
  rewrite Ht, Hv, Hw, <- Hs.
  unfold Vec.add, Vec.sub, Vec.multiplyScalar, Vec.clone. cbn [x y z].
  destruct (position card) as [px py pz]. cbn [x y z].
  repeat split; try (f_equal; ring); ring.
Qed.

Lemma spring_rest_is_fixed_witness :
  let card :=
    mkCardData (1, 2, 3) (4, 5, 6) (mkVector3 1 2 3) (mkVector3 0 0 0)
      0.4 0 None "a.jpg" 1 in
  let card' := stepCard tree None 0.033 0 card in
  position card' = position card /\
  velocity card' = mkVector3 0 0 0 /\
  scale card' = scale card /\
  scaleVelocity card' = 0 /\
  time card' = time card + 0.033.
Proof.
  apply (spring_rest_is_fixed tree None 0.033 0
           (mkCardData (1, 2, 3) (4, 5, 6) (mkVector3 1 2 3) (mkVector3 0 0 0)
              0.4 0 None "a.jpg" 1)); reflexivity.
Defined.

(** ** What a frame writes *)

Section FrameInvariants.

Variable state : TreeState.
Variable focusedIndex : option Z.
Variable camera : Vector3.

Lemma frameIteration_length (dt : R)
    (w : list CardData * list (option MeshGroup)) (i : nat) :
  List.length (fst (frameIteration state focusedIndex camera dt w i))
    = List.length (fst w) /\
  List.length (snd (frameIteration state focusedIndex camera dt w i))
    = List.length (snd w).
Proof.
  destruct w as [cards meshRefs]. unfold frameIteration.
  destruct (nth_error cards i) as [card|];
    [destruct (nth_error meshRefs i) as [[m|]|]|];
    cbn [fst snd]; rewrite ?length_set_nth; auto.
Qed.

Lemma frame_fold_length (dt : R) (idx : list nat)
    (w : list CardData * list (option MeshGroup)) :
  List.length
    (fst (fold_left (frameIteration state focusedIndex camera dt) idx w))
    = List.length (fst w) /\
  List.length
    (snd (fold_left (frameIteration state focusedIndex camera dt) idx w))
    = List.length (snd w).
Proof.
  revert w. induction idx as [|i idx IH]; intros w; [auto|].
  cbn [fold_left].
  destruct (IH (frameIteration state focusedIndex camera dt w i)) as [H1 H2].
  destruct (frameIteration_length dt w i) as [L1 L2].
  rewrite H1, H2, L1, L2. auto.
Qed.

Lemma useFrame_length (delta : R) (cards : list CardData)
    (meshRefs : list (option MeshGroup)) :
  List.length (fst (useFrame state focusedIndex camera delta cards meshRefs))
    = List.length cards /\
  List.length (snd (useFrame state focusedIndex camera delta cards meshRefs))
    = List.length meshRefs.
Proof.
  unfold useFrame. cbv zeta.
  exact (frame_fold_length (Rmin delta maxDt) (seq 0 (List.length cards))
           (cards, meshRefs)).
Qed.

End FrameInvariants.

(** X9.  A frame never changes the number of cards or of mesh slots, never
    fills an empty mesh slot, and never writes a card's layout positions,
    its texture or its recorded url.  A card without a mesh group is left
    exactly as it was; a card with one has its phase advanced by the
    clamped time step. *)
Theorem frame_keeps_layout_and_texture (state : TreeState)
    (focusedIndex : option Z) (camera : Vector3) (delta : R)
    (cards : list CardData) (meshRefs : list (option MeshGroup)) :
  let w := useFrame state focusedIndex camera delta cards meshRefs in
  List.length (fst w) = List.length cards /\
  List.length (snd w) = List.length meshRefs /\
  (forall i : nat,
     (nth_error meshRefs i = None -> nth_error (snd w) i = None) /\
     (nth_error meshRefs i = Some None -> nth_error (snd w) i = Some None)) /\
  (forall (i : nat) (c : CardData),
     nth_error cards i = Some c ->
     exists c' : CardData,
       nth_error (fst w) i = Some c' /\
       treePosition c' = treePosition c /\
       galaxyPosition c' = galaxyPosition c /\
       texture c' = texture c /\
       textureUrl c' = textureUrl c /\
       ((nth_error meshRefs i = None \/ nth_error meshRefs i = Some None) ->
        c' = c) /\
       ((exists m, nth_error meshRefs i = Some (Some m)) ->
        time c' = time c + Rmin delta 0.033)).
Proof.
  cbv zeta.
  destruct (useFrame_length state focusedIndex camera delta cards meshRefs)
    as [L1 L2].
  split; [exact L1|]. split; [exact L2|]. split.
  - intros i. rewrite useFrame_meshes_nth. unfold meshAfter.
    split; intros ->; destruct (nth_error cards i); reflexivity.
  - intros i c Hc. rewrite useFrame_cards_nth, Hc. unfold cardAfter.
    destruct (nth_error meshRefs i) as [[m|]|] eqn:Em.
    + eexists. split; [reflexivity|]. cbn.
      repeat split; try reflexivity.
      intros [H|H]; discriminate.
    + exists c. repeat split; try reflexivity.
      intros [m H]. discriminate.
    + exists c. repeat split; try reflexivity.
      intros [m H]. discriminate.
Qed.

Lemma frame_keeps_layout_and_texture_witness :
  let card :=
    mkCardData (1, 2, 3) (4, 5, 6) (mkVector3 1 2 3) (mkVector3 0 0 0)
      0.4 0 None "a.jpg" 1 in
  let cards := [card; card] in
  let meshRefs := [None; Some (mkMeshGroup (mkVector3 1 2 3)
                                 (mkVector3 0.4 0.4 1) (mkVector3 0 0 10))] in
  let w := useFrame galaxy (Some 1%Z) (mkVector3 0 0 10) 1 cards meshRefs in
  List.length (fst w) = List.length cards /\
  List.length (snd w) = List.length meshRefs /\
  (forall i : nat,
     (nth_error meshRefs i = None -> nth_error (snd w) i = None) /\
     (nth_error meshRefs i = Some None -> nth_error (snd w) i = Some None)) /\
  (forall (i : nat) (c : CardData),
     nth_error cards i = Some c ->
     exists c' : CardData,
       nth_error (fst w) i = Some c' /\
       treePosition c' = treePosition c /\
       galaxyPosition c' = galaxyPosition c /\
       texture c' = texture c /\
       textureUrl c' = textureUrl c /\
       ((nth_error meshRefs i = None \/ nth_error meshRefs i = Some None) ->
        c' = c) /\
       ((exists m, nth_error meshRefs i = Some (Some m)) ->
        time c' = time c + Rmin 1 0.033)).
Proof.
  exact (frame_keeps_layout_and_texture galaxy (Some 1%Z) (mkVector3 0 0 10) 1
           [mkCardData (1, 2, 3) (4, 5, 6) (mkVector3 1 2 3) (mkVector3 0 0 0)
              0.4 0 None "a.jpg" 1;
            mkCardData (1, 2, 3) (4, 5, 6) (mkVector3 1 2 3) (mkVector3 0 0 0)
              0.4 0 None "a.jpg" 1]
           [None; Some (mkMeshGroup (mkVector3 1 2 3) (mkVector3 0.4 0.4 1)
                          (mkVector3 0 0 10))]).
Defined.

(** X10.  What a frame hands to the renderer for a card that has a mesh
    group: the mesh sits at the card's new position, moved along the second
    axis by the idle bob, which is at most 0.005 and absent when the card is
    focused; its scale is the card's new scale on the two axes of the card
    and 1 on the third; it faces the camera. *)
Theorem frame_mesh_output (state : TreeState) (focusedIndex : option Z)
    (camera : Vector3) (delta : R) (cards : list CardData)
    (meshRefs : list (option MeshGroup)) (i : nat) (card : CardData)
    (mesh : MeshGroup) :
  nth_error cards i = Some card ->
  nth_error meshRefs i = Some (Some mesh) ->
  let w := useFrame state focusedIndex camera delta cards meshRefs in
  exists (card' : CardData) (mesh' : MeshGroup),
    nth_error (fst w) i = Some card' /\
    nth_error (snd w) i = Some (Some mesh') /\
    x (meshPosition mesh') = x (position card') /\
    z (meshPosition mesh') = z (position card') /\
    Rabs (y (meshPosition mesh') - y (position card')) <= 0.005 /\
    (isFocused focusedIndex i = true ->
     meshPosition mesh' = position card') /\
    (isFocused focusedIndex i = false ->
     y (meshPosition mesh')
     = y (position card') + sin (time card' * 0.5) * 0.005) /\
    meshScale mesh' = mkVector3 (scale card') (scale card') 1 /\
    facing mesh' = camera.
Proof.
  intros Hc Hm. cbv zeta.
  rewrite useFrame_cards_nth, useFrame_meshes_nth, Hc, Hm.
  unfold cardAfter, meshAfter.
  set (c' := stepCard state focusedIndex (Rmin delta maxDt) i card).
  exists c', (stepMesh focusedIndex camera i c').
  split; [reflexivity|]. split; [reflexivity|].
  unfold stepMesh.
  destruct (isFocused focusedIndex i) eqn:Ef; cbn [meshPosition meshScale facing x y z].
  - repeat split; try reflexivity; try discriminate.
    replace (y (position c') - y (position c')) with 0 by ring.
    rewrite Rabs_R0. lra.
  - repeat split; try reflexivity; try discriminate.
    replace (y (position c') + sin (time c' * 0.5) * 0.005 - y (position c'))
      with (sin (time c' * 0.5) * 0.005) by ring.
    apply Rabs_le. pose proof (SIN_bound (time c' * 0.5)). lra.
Qed.

Lemma frame_mesh_output_witness :
  let card :=
    mkCardData (1, 2, 3) (4, 5, 6) (mkVector3 1 2 3) (mkVector3 0 0 0)
      0.4 0 None "a.jpg" 1 in
  let mesh := mkMeshGroup (mkVector3 1 2 3) (mkVector3 0.4 0.4 1)
                (mkVector3 0 0 10) in
  let w := useFrame galaxy None (mkVector3 0 0 10) 1 [card] [Some mesh] in
  exists (card' : CardData) (mesh' : MeshGroup),
    nth_error (fst w) 0 = Some card' /\
    nth_error (snd w) 0 = Some (Some mesh') /\
    x (meshPosition mesh') = x (position card') /\
    z (meshPosition mesh') = z (position card') /\
    Rabs (y (meshPosition mesh') - y (position card')) <= 0.005 /\
    (isFocused None 0 = true -> meshPosition mesh' = position card') /\
    (isFocused None 0 = false ->
     y (meshPosition mesh')
     = y (position card') + sin (time card' * 0.5) * 0.005) /\
    meshScale mesh' = mkVector3 (scale card') (scale card') 1 /\
    facing mesh' = mkVector3 0 0 10.
Proof.
  apply (frame_mesh_output galaxy None (mkVector3 0 0 10) 1
           [mkCardData (1, 2, 3) (4, 5, 6) (mkVector3 1 2 3) (mkVector3 0 0 0)
              0.4 0 None "a.jpg" 1]
           [Some (mkMeshGroup (mkVector3 1 2 3) (mkVector3 0.4 0.4 1)
                    (mkVector3 0 0 10))]
           0
           (mkCardData (1, 2, 3) (4, 5, 6) (mkVector3 1 2 3) (mkVector3 0 0 0)
              0.4 0 None "a.jpg" 1)
           (mkMeshGroup (mkVector3 1 2 3) (mkVector3 0.4 0.4 1)
              (mkVector3 0 0 10))); reflexivity.
Defined.

(** ** Completions, one after the other *)

Section Completions.

(** The store after a completion, index by index. *)
Lemma complete_nth (req : LoadRequest) (comp : Completion)
    (cards : list CardData) (j : nat) :
  nth_error (complete req comp cards) j =
  if Nat.eqb (reqIndex req) j
  then option_map (written req comp) (nth_error cards j)
  else nth_error cards j.
Proof.
  destruct (Nat.eqb_spec (reqIndex req) j) as [<-|Hne].
  - destruct (nth_error cards (reqIndex req)) as [c|] eqn:Ec.
    + destruct comp as [tex|]; cbn [complete option_map written].
      * apply onLoad_hit. exact Ec.
      * apply onError_hit. exact Ec.
    + rewrite complete_miss by exact Ec. rewrite Ec. reflexivity.
  - apply complete_other. congruence.
Qed.

Lemma written_twice (req : LoadRequest) (comp : Completion) (c : CardData) :
  written req comp (written req comp c) = written req comp c.
Proof. destruct comp; reflexivity. Qed.

Lemma written_texture (req : LoadRequest) (comp : Completion) (c : CardData) :
  exists t : Texture, texture (written req comp c) = Some t.
Proof. destruct comp; eexists; reflexivity. Qed.

Lemma stepCard_written (state : TreeState) (focusedIndex : option Z) (dt : R)
    (i : nat) (req : LoadRequest) (comp : Completion) (c : CardData) :
  stepCard state focusedIndex dt i (written req comp c)
  = written req comp (stepCard state focusedIndex dt i c).
Proof. destruct comp; reflexivity. Qed.

Lemma stepMesh_written (focusedIndex : option Z) (camera : Vector3) (i : nat)
    (req : LoadRequest) (comp : Completion) (c : CardData) :
  stepMesh focusedIndex camera i (written req comp c)
  = stepMesh focusedIndex camera i c.
Proof. destruct comp; reflexivity. Qed.

End Completions.

(** X11.  Delivering the same completion twice is the same as delivering it
    once. *)
Theorem completion_idempotent (req : LoadRequest) (comp : Completion)
    (cards : list CardData) :
  complete req comp (complete req comp cards) = complete req comp cards.
Proof.
  apply nth_error_ext. intros j. rewrite !complete_nth.
  destruct (Nat.eqb (reqIndex req) j); [|reflexivity].
  destruct (nth_error cards j) as [c|]; [|reflexivity].
  cbn [option_map]. rewrite written_twice. reflexivity.
Qed.

(** X12.  Completions for different indices can arrive in either order:
    the store they leave is the same. *)
Theorem completions_commute (r1 r2 : LoadRequest) (c1 c2 : Completion)
    (cards : list CardData) :
  reqIndex r1 <> reqIndex r2 ->
  complete r1 c1 (complete r2 c2 cards) = complete r2 c2 (complete r1 c1 cards).
Proof.
  intros Hne. apply nth_error_ext. intros j. rewrite !complete_nth.
  destruct (Nat.eqb_spec (reqIndex r1) j) as [E1|N1];
    destruct (Nat.eqb_spec (reqIndex r2) j) as [E2|N2];
    try reflexivity.
  congruence.
Qed.

Lemma completions_commute_witness :
  let a :=
    mkCardData (1, 2, 3) (4, 0, 0) (mkVector3 1 2 3) (mkVector3 0 0 0)
      0.4 0 None "a.jpg" 1 in
  let b :=
    mkCardData (3, 2, 1) (0, 0, 4) (mkVector3 0 0 0.8) (mkVector3 0 0 0)
      5 0 None "b.jpg" 2 in
  let r1 := mkLoadRequest 0 "a.jpg" in
  let r2 := mkLoadRequest 1 "b.jpg" in
  let c1 := Loaded (mkTexture (LoadedFrom "a.jpg") None (1, 1) (0, 0)) in
  complete r1 c1 (complete r2 Failed [a; b])
  = complete r2 Failed (complete r1 c1 [a; b]).
Proof.
  apply (completions_commute (mkLoadRequest 0 "a.jpg")
           (mkLoadRequest 1 "b.jpg")
           (Loaded (mkTexture (LoadedFrom "a.jpg") None (1, 1) (0, 0)))
           Failed).
  cbn. discriminate.
Defined.

(** X13.  A completion and a frame do not disturb each other: whether the
    texture arrives before or after the frame, the store is the same, and
    the mesh groups the frame writes do not depend on the texture. *)
Theorem completion_commutes_with_frame (state : TreeState)
    (focusedIndex : option Z) (camera : Vector3) (delta : R)
    (req : LoadRequest) (comp : Completion)
    (cards : list CardData) (meshRefs : list (option MeshGroup)) :
  fst (useFrame state focusedIndex camera delta
         (complete req comp cards) meshRefs)
  = complete req comp
      (fst (useFrame state focusedIndex camera delta cards meshRefs)) /\
  snd (useFrame state focusedIndex camera delta
         (complete req comp cards) meshRefs)
  = snd (useFrame state focusedIndex camera delta cards meshRefs).
Proof.
  split; apply nth_error_ext; intros j.
  - rewrite complete_nth, !useFrame_cards_nth, complete_nth.
    unfold cardAfter.
    destruct (Nat.eqb (reqIndex req) j); [|reflexivity].
    destruct (nth_error cards j) as [c|]; [|reflexivity].
    cbn [option_map].
    destruct (nth_error meshRefs j) as [[m|]|]; try reflexivity.
    rewrite stepCard_written. reflexivity.
  - rewrite !useFrame_meshes_nth, complete_nth. unfold meshAfter.
    destruct (Nat.eqb (reqIndex req) j); [|reflexivity].
    destruct (nth_error cards j) as [c|]; [|reflexivity].
    cbn [option_map].
    destruct (nth_error meshRefs j) as [[m|]|]; try reflexivity.
    rewrite stepCard_written, stepMesh_written. reflexivity.
Qed.

Section AllLoaded.

Lemma allLoaded_spec (cards : list CardData) :
  allLoaded cards = true <->
  forall (i : nat) (c : CardData),
    nth_error cards i = Some c -> texture c <> None.
Proof.
  unfold allLoaded. rewrite forallb_forall. split.
  - intros H i c Hc Ht. apply nth_error_In in Hc.
    specialize (H c Hc). rewrite Ht in H. discriminate.
  - intros H c Hc. apply In_nth_error in Hc as [i Hi].
    specialize (H i c Hi). destruct (texture c); congruence.
Qed.

(** Every card still without a texture has a completion to come. *)
Lemma completeAll_allLoaded (evs : list (LoadRequest * Completion))
    (cards : list CardData) :
  (forall (i : nat) (c : CardData),
     nth_error cards i = Some c -> texture c = None ->
     exists ev, In ev evs /\ reqIndex (fst ev) = i) ->
  allLoaded (completeAll evs cards) = true.
Proof.
  revert cards. induction evs as [|ev evs IH]; intros cards H.
  - cbn. apply allLoaded_spec. intros i c Hc Ht.
    destruct (H i c Hc Ht) as (ev & [] & _).
  - cbn [completeAll fold_left]. apply IH. intros i c Hc Ht.
    rewrite complete_nth in Hc.
    destruct (Nat.eqb_spec (reqIndex (fst ev)) i) as [E|N].
    + destruct (nth_error cards i) as [c0|]; [|discriminate].
      cbn [option_map] in Hc. injection Hc as <-.
      destruct (written_texture (fst ev) (snd ev) c0) as [t Et].
      congruence.
    + destruct (H i c Hc Ht) as (ev' & [<-|Hin] & Hi); [congruence|].
      exists ev'. auto.
Qed.

End AllLoaded.

(** X14.  Once every load that a render started has completed, with
    success or with failure and in whatever order (other completions may
    be interleaved), every card has a texture: the poll [allLoaded] is
    true and stays true under further completions. *)
Theorem all_requests_completed_all_loaded (rng : nat -> R)
    (old : list CardData) (photos : option (list string)) (n : nat)
    (evs more : list (LoadRequest * Completion)) :
  (forall r : LoadRequest,
     In r (snd (fst (render rng old photos n))) -> In r (map fst evs)) ->
  allLoaded (completeAll evs (fst (fst (render rng old photos n)))) = true /\
  allLoaded
    (completeAll more (completeAll evs (fst (fst (render rng old photos n)))))
    = true.
Proof.
  intros Hall.
  assert (H1 : allLoaded
                 (completeAll evs (fst (fst (render rng old photos n))))
               = true).
  { apply completeAll_allLoaded. intros i c Hc Ht.
    assert (Hr : In (mkLoadRequest i (textureUrl c))
                   (snd (fst (render rng old photos n)))).
    { apply render_requests. exists c. cbn [reqIndex reqUrl].
      split; [|split; assumption].
      rewrite <- (render_urls rng old photos n), nth_error_map, Hc.
      reflexivity. }
    apply Hall in Hr. apply in_map_iff in Hr as (ev & Hev & Hin).
    exists ev. split; [exact Hin|]. rewrite Hev. reflexivity. }
  split; [exact H1|].
  apply completeAll_allLoaded. intros i c Hc Ht.
  exfalso. apply (proj1 (allLoaded_spec _) H1 i c Hc Ht).
Qed.

Lemma all_requests_completed_all_loaded_witness :
  let r := render (fun _ => 1 / 2) [] (Some ["a.jpg"%string]) 0%nat in
  let evs := [(mkLoadRequest 0 "a.jpg", Failed)] in
  allLoaded (completeAll evs (fst (fst r))) = true /\
  allLoaded (completeAll [] (completeAll evs (fst (fst r)))) = true.
Proof.
  apply (all_requests_completed_all_loaded (fun _ => 1 / 2) []
           (Some ["a.jpg"%string]) 0%nat
           [(mkLoadRequest 0 "a.jpg", Failed)] []).
  intros r Hr. apply render_requests in Hr as (c & Hu & _ & _).
  destruct r as [[|i] u]; cbn in Hu.
  - injection Hu as <-. left. reflexivity.
  - destruct i; discriminate.
Defined.

(** ** The first render *)

Section FirstMount.

Variable rng : nat -> R.

Lemma reconcileCard_fresh (photo : Photo) (i m : nat) :
  reconcileCard rng [] photo i m =
  (mkCardData (photoTreePosition photo) (photoGalaxyPosition photo)
     (Vec.ofTriple (photoTreePosition photo)) (mkVector3 0 0 0)
     initialScale 0 None (url photo) (rng m * PI * 2),
   Some (mkLoadRequest i (url photo)),
   S m).
Proof. destruct i; reflexivity. Qed.

Lemma requestsOf_all (l : list (CardData * option LoadRequest)) :
  (forall e, In e l -> snd e <> None) ->
  forall k : nat,
    nth_error (requestsOf l) k =
    match nth_error l k with
    | Some e => snd e
    | None => None
    end.
Proof.
  induction l as [|[c [r|]] l IH]; intros H k.
  - destruct k; reflexivity.
  - cbn [requestsOf]. destruct k as [|k]; [reflexivity|].
    cbn [nth_error]. apply IH. intros e He. apply H. right. exact He.
  - exfalso. apply (H (c, None)); [left|]; reflexivity.
Qed.

Lemma fresh_results (pd : list Photo) (m k : nat) :
  nth_error (fst (mapiM (reconcileCard rng []) 0 pd m)) k =
  option_map (fun photo => fst (reconcileCard rng [] photo k (m + k)%nat))
    (nth_error pd k).
Proof.
  rewrite (mapiM_nth_fixed (reconcileCard rng []) 1).
  - cbn [Nat.add]. rewrite Nat.mul_1_l. reflexivity.
  - intros a i n. rewrite reconcileCard_fresh. reflexivity.
Qed.

End FirstMount.

(** X15.  The first render (empty store): a load is started for every
    card, in the order of the cards, each for the url of its card; every
    card starts on its tree position with no velocity, at scale 0.4 with
    no scale velocity and without texture; its phase is its own draw times
    [2 * PI], in [[0, 2 * PI)] for a draw in [[0, 1)]; the render makes
    four draws per card. *)
Theorem first_render (rng : nat -> R) (photos : option (list string))
    (n : nat) :
  let r := render rng [] photos n in
  let urls := firstn maxCards (photoUrls photos) in
  let count := Nat.min (List.length (photoUrls photos)) maxCards in
  (forall i : nat,
     nth_error (snd (fst r)) i
     = option_map (mkLoadRequest i) (nth_error urls i)) /\
  snd r = (n + 4 * count)%nat /\
  (forall (i : nat) (u : string),
     nth_error urls i = Some u ->
     exists c : CardData,
       nth_error (fst (fst r)) i = Some c /\
       textureUrl c = u /\
       treePosition c = generateTreePhotoPosition (INR i) (INR count) /\
       position c = Vec.ofTriple (treePosition c) /\
       velocity c = mkVector3 0 0 0 /\
       scale c = 0.4 /\ scaleVelocity c = 0 /\
       texture c = None /\
       time c = rng (n + 3 * count + i)%nat * PI * 2 /\
       (0 <= rng (n + 3 * count + i)%nat < 1 -> 0 <= time c < 2 * PI)).
Proof.
  cbv zeta. rewrite render_eq, reconcile_eq. cbn [fst snd].
  set (pd := fst (photoData rng (photoUrls photos) n)).
  rewrite (photoData_counter rng).
  set (count := Nat.min (List.length (photoUrls photos)) maxCards).
  set (m := (n + 3 * count)%nat).
  assert (Hpd : forall i,
            nth_error pd i =
            option_map
              (fun u =>
                 mkPhoto u (generateTreePhotoPosition (INR i) (INR count))
                   (fst (generateGalaxyPhotoPosition rng (n + 3 * i)%nat)))
              (nth_error (firstn maxCards (photoUrls photos)) i))
    by (intros i; apply photoData_nth).
  assert (Hlen : List.length pd = count) by apply photoData_length.
  split; [|split].
  - intros i. rewrite requestsOf_all.
    + rewrite fresh_results, Hpd.
      destruct (nth_error (firstn maxCards (photoUrls photos)) i) as [u|];
        [|reflexivity].
      cbn [option_map]. rewrite reconcileCard_fresh. reflexivity.
    + intros e He. apply In_nth_error in He as [k Hk].
      rewrite fresh_results in Hk.
      destruct (nth_error pd k) as [photo|]; [|discriminate].
      cbn [option_map] in Hk. rewrite reconcileCard_fresh in Hk.
      injection Hk as <-. discriminate.
  - rewrite (mapiM_counter_fixed (reconcileCard rng []) 1).
    + rewrite Hlen. unfold m. lia.
    + intros a i k. rewrite reconcileCard_fresh. reflexivity.
  - intros i u Hu. rewrite nth_error_map, fresh_results, Hpd, Hu.
    cbn [option_map]. rewrite reconcileCard_fresh. cbn [fst].
    eexists. split; [reflexivity|].
    cbn [textureUrl treePosition position velocity scale scaleVelocity
         texture time url photoTreePosition].
    unfold initialScale. repeat split; try reflexivity.
    + pose proof PI_RGT_0. nra.
    + pose proof PI_RGT_0. nra.
Qed.

Lemma first_render_witness :
  let rng := fun _ : nat => 1 / 2 in
  let photos := Some ["a.jpg"; "b.jpg"]%string in
  let r := render rng [] photos 0%nat in
  let urls := firstn maxCards (photoUrls photos) in
  let count := Nat.min (List.length (photoUrls photos)) maxCards in
  (forall i : nat,
     nth_error (snd (fst r)) i
     = option_map (mkLoadRequest i) (nth_error urls i)) /\
  snd r = (0 + 4 * count)%nat /\
  (forall (i : nat) (u : string),
     nth_error urls i = Some u ->
     exists c : CardData,
       nth_error (fst (fst r)) i = Some c /\
       textureUrl c = u /\
       treePosition c = generateTreePhotoPosition (INR i) (INR count) /\
       position c = Vec.ofTriple (treePosition c) /\
       velocity c = mkVector3 0 0 0 /\
       scale c = 0.4 /\ scaleVelocity c = 0 /\
       texture c = None /\
       time c = rng (0 + 3 * count + i)%nat * PI * 2 /\
       (0 <= rng (0 + 3 * count + i)%nat < 1 -> 0 <= time c < 2 * PI)).
Proof.
  exact (first_render (fun _ => 1 / 2) (Some ["a.jpg"; "b.jpg"]%string) 0).
Defined.

(** ** Rendering again *)



(** ** The springs settle *)

Section SpringDecay.

(** A quadratic form with positive leading coefficient and non-positive
    discriminant is non-negative. *)
Lemma quad_nonneg (a b c d v : R) :
  0 < a -> b * b <= 4 * a * c ->
  0 <= a * (v * v) + b * (d * v) + c * (d * d).
Proof.
  intros Ha Hd.
  assert (H : 0 <= 4 * a * (a * (v * v) + b * (d * v) + c * (d * d))).
  { replace (4 * a * (a * (v * v) + b * (d * v) + c * (d * d)))
      with ((2 * a * v + b * d) * (2 * a * v + b * d)
            + (4 * a * c - b * b) * (d * d)) by ring.
    assert (0 <= (2 * a * v + b * d) * (2 * a * v + b * d))
      by apply Rle_0_sqr.
    assert (0 <= (4 * a * c - b * b) * (d * d)).
    { apply Rmult_le_pos; [lra | apply Rle_0_sqr]. }
    lra. }
  apply (Rmult_le_reg_l (4 * a)); [lra|]. lra.
Qed.

Lemma powers_bounded (h : R) :
  0 <= h <= 33 / 1000 ->
  0 <= h * h <= 33 / 1000 * (33 / 1000) /\
  0 <= h * h * h <= 33 / 1000 * (33 / 1000) * (33 / 1000).
Proof. intros [H0 H1]. split; nra. Qed.

(** One step of the position spring (stiffness 25, damping 8) with a time
    step in [[0, 0.033]] shrinks the measure by the factor [1 - 4 * dt]. *)
Lemma position_spring_contracts (h p v t : R) :
  0 <= h <= 33 / 1000 ->
  let '(p', v') := specSpring 25 8 h p v t in
  springEnergy 25 8 p' v' t <= (1 - 4 * h) * springEnergy 25 8 p v t.
Proof.
  intros Hh. unfold specSpring, springEnergy. cbv zeta.
  set (d := p - t).
  destruct (powers_bounded h Hh) as [H2 H3]. destruct Hh as [H0 H1].
  set (a := 4 + 39 * h - 112 * (h * h) - 1600 * (h * h * h)).
  set (b := 32 + 400 * h - 1950 * (h * h) - 10000 * (h * h * h)).
  set (c := 100 + 625 * h - 5000 * (h * h) - 15625 * (h * h * h)).
  assert (Ha : 0 < a) by (unfold a; nra).
  assert (Hb : b * b <= 4 * a * c) by (unfold a, b, c; nra).
  pose proof (quad_nonneg a b c d v Ha Hb) as Hq.
  assert (E : (1 - 4 * h) * (v * v + 8 * d * v + 25 * (d * d))
              - ((v + (- (25) * d - 8 * v) * h) * (v + (- (25) * d - 8 * v) * h)
                 + 8 * (p + (v + (- (25) * d - 8 * v) * h) * h - t)
                   * (v + (- (25) * d - 8 * v) * h)
                 + 25 * ((p + (v + (- (25) * d - 8 * v) * h) * h - t)
                         * (p + (v + (- (25) * d - 8 * v) * h) * h - t)))
              = h * (a * (v * v) + b * (d * v) + c * (d * d)))
    by (unfold a, b, c, d; ring).
  assert (0 <= h * (a * (v * v) + b * (d * v) + c * (d * d)))
    by (apply Rmult_le_pos; assumption).
  lra.
Qed.

(** The same for the scale spring (stiffness 30, damping 10). *)
Lemma scale_spring_contracts (h p v t : R) :
  0 <= h <= 33 / 1000 ->
  let '(p', v') := specSpring 30 10 h p v t in
  springEnergy 30 10 p' v' t <= (1 - 4 * h) * springEnergy 30 10 p v t.
Proof.
  intros Hh. unfold specSpring, springEnergy. cbv zeta.
  set (d := p - t).
  destruct (powers_bounded h Hh) as [H2 H3]. destruct Hh as [H0 H1].
  set (a := 6 + 70 * h - 400 * (h * h) - 3000 * (h * h * h)).
  set (b := 60 + 600 * h - 4200 * (h * h) - 18000 * (h * h * h)).
  set (c := 180 + 900 * h - 9000 * (h * h) - 27000 * (h * h * h)).
  assert (Ha : 0 < a) by (unfold a; nra).
  assert (Hb : b * b <= 4 * a * c) by (unfold a, b, c; nra).
  pose proof (quad_nonneg a b c d v Ha Hb) as Hq.
  assert (E : (1 - 4 * h) * (v * v + 10 * d * v + 30 * (d * d))
              - ((v + (- (30) * d - 10 * v) * h) * (v + (- (30) * d - 10 * v) * h)
                 + 10 * (p + (v + (- (30) * d - 10 * v) * h) * h - t)
                   * (v + (- (30) * d - 10 * v) * h)
                 + 30 * ((p + (v + (- (30) * d - 10 * v) * h) * h - t)
                         * (p + (v + (- (30) * d - 10 * v) * h) * h - t)))
              = h * (a * (v * v) + b * (d * v) + c * (d * d)))
    by (unfold a, b, c, d; ring).
  assert (0 <= h * (a * (v * v) + b * (d * v) + c * (d * d)))
    by (apply Rmult_le_pos; assumption).
  lra.
Qed.

(** The measure bounds the squared displacement. *)
Lemma position_energy_lower (p v t : R) :
  9 * ((p - t) * (p - t)) <= springEnergy 25 8 p v t.
Proof.
  unfold springEnergy. cbv zeta. set (d := p - t).
  assert (0 <= (v + 4 * d) * (v + 4 * d)) by apply Rle_0_sqr. lra.
Qed.

Lemma scale_energy_lower (p v t : R) :
  5 * ((p - t) * (p - t)) <= springEnergy 30 10 p v t.
Proof.
  unfold springEnergy. cbv zeta. set (d := p - t).
  assert (0 <= (v + 5 * d) * (v + 5 * d)) by apply Rle_0_sqr. lra.
Qed.

End SpringDecay.

Section CardDecay.

Variable state : TreeState.
Variable focusedIndex : option Z.

Lemma maxDt_eq : maxDt = 33 / 1000.
Proof. unfold maxDt. lra. Qed.

Lemma clamped_step_range (delta : R) :
  0 <= delta -> 0 <= Rmin delta maxDt <= 33 / 1000.
Proof.
  intros Hd. rewrite maxDt_eq. split.
  - apply Rmin_glb; lra.
  - apply Rmin_r.
Qed.

(** A loop iteration does not move the targets of its card. *)
Lemma stepCard_targetPos (dt : R) (i : nat) (card : CardData) :
  targetPos state focusedIndex i (stepCard state focusedIndex dt i card)
  = targetPos state focusedIndex i card.
Proof. reflexivity. Qed.

Lemma stepCard_contracts (dt : R) (i : nat) (card : CardData) :
  0 <= dt <= 33 / 1000 ->
  positionEnergy state focusedIndex i (stepCard state focusedIndex dt i card)
    <= (1 - 4 * dt) * positionEnergy state focusedIndex i card /\
  scaleEnergy focusedIndex i (stepCard state focusedIndex dt i card)
    <= (1 - 4 * dt) * scaleEnergy focusedIndex i card.
Proof.
  intros Hdt.
  pose proof (stepCard_specSpring state focusedIndex dt i card) as H.
  cbv zeta in H. destruct H as (Hx & Hy & Hz & Hs).
  unfold SPRING_STIFFNESS, SPRING_DAMPING, SCALE_STIFFNESS, SCALE_DAMPING
    in Hx, Hy, Hz, Hs.
  unfold positionEnergy, scaleEnergy. cbv zeta.
  rewrite stepCard_targetPos.
  unfold SPRING_STIFFNESS, SPRING_DAMPING, SCALE_STIFFNESS, SCALE_DAMPING.
  set (c' := stepCard state focusedIndex dt i card) in *.
  set (t := targetPos state focusedIndex i card) in *.
  pose proof (position_spring_contracts dt (x (position card))
                (x (velocity card)) (x t) Hdt) as Cx.
  pose proof (position_spring_contracts dt (y (position card))
                (y (velocity card)) (y t) Hdt) as Cy.
  pose proof (position_spring_contracts dt (z (position card))
                (z (velocity card)) (z t) Hdt) as Cz.
  pose proof (scale_spring_contracts dt (scale card) (scaleVelocity card)
                (targetScale focusedIndex i) Hdt) as Cs.
  rewrite <- Hx in Cx. rewrite <- Hy in Cy. rewrite <- Hz in Cz.
  rewrite <- Hs in Cs.
  split; lra.
Qed.

Lemma energy_bounds_distance (i : nat) (card : CardData) :
  9 * distance2 state focusedIndex i card
    <= positionEnergy state focusedIndex i card /\
  5 * ((scale card - targetScale focusedIndex i)
       * (scale card - targetScale focusedIndex i))
    <= scaleEnergy focusedIndex i card.
Proof.
  unfold distance2, positionEnergy, scaleEnergy, Vec.sub. cbv zeta.
  cbn [x y z].
  unfold SPRING_STIFFNESS, SPRING_DAMPING, SCALE_STIFFNESS, SCALE_DAMPING.
  set (t := targetPos state focusedIndex i card).
  pose proof (position_energy_lower (x (position card)) (x (velocity card))
                (x t)).
  pose proof (position_energy_lower (y (position card)) (y (velocity card))
                (y t)).
  pose proof (position_energy_lower (z (position card)) (z (velocity card))
                (z t)).
  pose proof (scale_energy_lower (scale card) (scaleVelocity card)
                (targetScale focusedIndex i)).
  split; lra.
Qed.

Lemma decay_range (deltas : list R) :
  Forall (fun delta => 0 <= delta) deltas -> 0 <= decay deltas <= 1.
Proof.
  induction 1 as [|delta deltas Hd _ IH]; cbn [decay]; [lra|].
  pose proof (clamped_step_range delta Hd). nra.
Qed.

Lemma decay_geometric (deltas : list R) (d0 : R) :
  0 <= d0 <= 33 / 1000 ->
  Forall (fun delta => d0 <= delta) deltas ->
  decay deltas <= (1 - 4 * d0) ^ List.length deltas.
Proof.
  intros Hd0.
  induction 1 as [|delta deltas Hd Hall IH]; cbn [decay List.length pow];
    [lra|].
  assert (Hr : 0 <= decay deltas <= 1).
  { apply decay_range. eapply Forall_impl; [|exact Hall].
    cbn. intros a Ha. lra. }
  assert (Hm : d0 <= Rmin delta maxDt <= 33 / 1000).
  { rewrite maxDt_eq. split; [apply Rmin_glb; lra | apply Rmin_r]. }
  assert (Hp : 0 <= (1 - 4 * d0) ^ List.length deltas)
    by (apply pow_le; lra).
  nra.
Qed.

End CardDecay.

(** X17.  One frame with a non-negative [delta] brings every card that has
    a mesh group closer to rest at its targets: the measure
    [v^2 + damping * d * v + stiffness * d^2] of its position spring and
    that of its scale spring shrink at least by the factor [1 - 4 * dt],
    where [dt = min(delta, 0.033)] is at most 0.033 however long the frame
    took; nine times the squared distance to the target position, and five
    times the squared difference to the target scale, are at most these
    measures. *)
Theorem frame_contracts_springs (state : TreeState)
    (focusedIndex : option Z) (camera : Vector3) (delta : R)
    (cards : list CardData) (meshRefs : list (option MeshGroup)) (i : nat)
    (card : CardData) (mesh : MeshGroup) :
  0 <= delta ->
  nth_error cards i = Some card ->
  nth_error meshRefs i = Some (Some mesh) ->
  exists card' : CardData,
    nth_error
      (fst (useFrame state focusedIndex camera delta cards meshRefs)) i
      = Some card' /\
    let dt := Rmin delta 0.033 in
    0 <= dt <= 0.033 /\
    positionEnergy state focusedIndex i card'
      <= (1 - 4 * dt) * positionEnergy state focusedIndex i card /\
    scaleEnergy focusedIndex i card'
      <= (1 - 4 * dt) * scaleEnergy focusedIndex i card /\
    9 * distance2 state focusedIndex i card'
      <= positionEnergy state focusedIndex i card' /\
    5 * ((scale card' - targetScale focusedIndex i)
         * (scale card' - targetScale focusedIndex i))
      <= scaleEnergy focusedIndex i card'.
Proof.
  intros Hd Hc Hm.
  exists (stepCard state focusedIndex (Rmin delta maxDt) i card). split.
  - rewrite useFrame_cards_nth, Hc, Hm. reflexivity.
  - cbv zeta. pose proof (clamped_step_range delta Hd) as Hr.
    fold maxDt.
    destruct (stepCard_contracts state focusedIndex (Rmin delta maxDt) i card Hr)
      as [Hp Hs].
    destruct (energy_bounds_distance state focusedIndex i
                (stepCard state focusedIndex (Rmin delta maxDt) i card))
      as [Bp Bs].
    split; [unfold maxDt in *; lra|]. auto.
Qed.

Lemma frame_contracts_springs_witness :
  let card :=
    mkCardData (1, 2, 3) (4, 5, 6) (mkVector3 1 2 3) (mkVector3 0 0 0)
      0.4 0 None "a.jpg" 1 in
  let mesh := mkMeshGroup (mkVector3 1 2 3) (mkVector3 0.4 0.4 1)
                (mkVector3 0 0 10) in
  exists card' : CardData,
    nth_error
      (fst (useFrame galaxy (Some 0%Z) (mkVector3 0 0 10) 1 [card]
              [Some mesh])) 0
      = Some card' /\
    let dt := Rmin 1 0.033 in
    0 <= dt <= 0.033 /\
    positionEnergy galaxy (Some 0%Z) 0 card'
      <= (1 - 4 * dt) * positionEnergy galaxy (Some 0%Z) 0 card /\
    scaleEnergy (Some 0%Z) 0 card'
      <= (1 - 4 * dt) * scaleEnergy (Some 0%Z) 0 card /\
    9 * distance2 galaxy (Some 0%Z) 0 card'
      <= positionEnergy galaxy (Some 0%Z) 0 card' /\
    5 * ((scale card' - targetScale (Some 0%Z) 0)
         * (scale card' - targetScale (Some 0%Z) 0))
      <= scaleEnergy (Some 0%Z) 0 card'.
Proof.
  apply (frame_contracts_springs galaxy (Some 0%Z) (mkVector3 0 0 10) 1
           [mkCardData (1, 2, 3) (4, 5, 6) (mkVector3 1 2 3) (mkVector3 0 0 0)
              0.4 0 None "a.jpg" 1]
           [Some (mkMeshGroup (mkVector3 1 2 3) (mkVector3 0.4 0.4 1)
                    (mkVector3 0 0 10))]
           0
           (mkCardData (1, 2, 3) (4, 5, 6) (mkVector3 1 2 3) (mkVector3 0 0 0)
              0.4 0 None "a.jpg" 1)
           (mkMeshGroup (mkVector3 1 2 3) (mkVector3 0.4 0.4 1)
              (mkVector3 0 0 10))); [lra | reflexivity | reflexivity].
Defined.

Section Frames.

Variable state : TreeState.
Variable focusedIndex : option Z.
Variable camera : Vector3.

Lemma runFrames_cons (delta : R) (deltas : list R)
    (w : list CardData * list (option MeshGroup)) :
  runFrames state focusedIndex camera (delta :: deltas) w =
  runFrames state focusedIndex camera deltas
    (useFrame state focusedIndex camera delta (fst w) (snd w)).
Proof. reflexivity. Qed.

(** A card with a mesh group keeps one, and its measures shrink by the
    product of the factors of the frames. *)
Lemma runFrames_decay (deltas : list R) :
  Forall (fun delta => 0 <= delta) deltas ->
  forall (w : list CardData * list (option MeshGroup)) (i : nat)
         (card : CardData) (mesh : MeshGroup),
    nth_error (fst w) i = Some card ->
    nth_error (snd w) i = Some (Some mesh) ->
    exists (card' : CardData) (mesh' : MeshGroup),
      nth_error (fst (runFrames state focusedIndex camera deltas w)) i
        = Some card' /\
      nth_error (snd (runFrames state focusedIndex camera deltas w)) i
        = Some (Some mesh') /\
      positionEnergy state focusedIndex i card'
        <= decay deltas * positionEnergy state focusedIndex i card /\
      scaleEnergy focusedIndex i card'
        <= decay deltas * scaleEnergy focusedIndex i card.
Proof.
  induction 1 as [|delta deltas Hd Hall IH]; intros w i card mesh Hc Hm.
  - exists card, mesh. cbn [runFrames fold_left decay].
    split; [exact Hc|]. split; [exact Hm|]. split; lra.
  - rewrite runFrames_cons.
    set (w1 := useFrame state focusedIndex camera delta (fst w) (snd w)).
    set (c1 := stepCard state focusedIndex (Rmin delta maxDt) i card).
    assert (Hc1 : nth_error (fst w1) i = Some c1).
    { unfold w1. rewrite useFrame_cards_nth, Hc, Hm. reflexivity. }
    assert (Hm1 : nth_error (snd w1) i
                  = Some (Some (stepMesh focusedIndex camera i c1))).
    { unfold w1. rewrite useFrame_meshes_nth, Hc, Hm. reflexivity. }
    destruct (IH w1 i c1 _ Hc1 Hm1) as (c' & m' & N & M & Ep & Es).
    exists c', m'. split; [exact N|]. split; [exact M|].
    pose proof (clamped_step_range delta Hd) as Hr.
    destruct (stepCard_contracts state focusedIndex (Rmin delta maxDt) i card Hr)
      as [Sp Ss].
    fold c1 in Sp, Ss.
    pose proof (decay_range deltas Hall) as Hdec.
    cbn [decay]. split.
    + apply Rle_trans with (1 := Ep).
      rewrite (Rmult_comm (1 - 4 * Rmin delta maxDt)), Rmult_assoc.
      apply Rmult_le_compat_l; [lra | exact Sp].
    + apply Rle_trans with (1 := Es).
      rewrite (Rmult_comm (1 - 4 * Rmin delta maxDt)), Rmult_assoc.
      apply Rmult_le_compat_l; [lra | exact Ss].
Qed.

End Frames.

(** X18.  Frames run one after the other with the mode and the focus held
    fixed, each with a non-negative [delta]: a card that has a mesh group
    approaches its target position and its target scale.  Nine times its
    squared distance to the target position is at most [decay deltas]
    times the measure of its position spring at the start, and five times
    the squared difference to the target scale at most [decay deltas] times
    the measure of its scale spring.  [decay deltas] lies in [[0, 1]], and
    when every frame lasts at least [d0], with [0 <= d0 <= 0.033], it is at
    most [(1 - 4 * d0)] to the power of the number of frames. *)
Theorem frames_converge (state : TreeState) (focusedIndex : option Z)
    (camera : Vector3) (deltas : list R)
    (cards : list CardData) (meshRefs : list (option MeshGroup)) (i : nat)
    (card : CardData) (mesh : MeshGroup) :
  Forall (fun delta => 0 <= delta) deltas ->
  nth_error cards i = Some card ->
  nth_error meshRefs i = Some (Some mesh) ->
  exists card' : CardData,
    nth_error
      (fst (runFrames state focusedIndex camera deltas (cards, meshRefs))) i
      = Some card' /\
    9 * distance2 state focusedIndex i card'
      <= decay deltas * positionEnergy state focusedIndex i card /\
    5 * ((scale card' - targetScale focusedIndex i)
         * (scale card' - targetScale focusedIndex i))
      <= decay deltas * scaleEnergy focusedIndex i card /\
    0 <= decay deltas <= 1 /\
    (forall d0 : R,
       0 <= d0 <= 0.033 ->
       Forall (fun delta => d0 <= delta) deltas ->
       decay deltas <= (1 - 4 * d0) ^ List.length deltas).
Proof.
  intros Hall Hc Hm.
  destruct (runFrames_decay state focusedIndex camera deltas Hall
              (cards, meshRefs) i card mesh Hc Hm)
    as (c' & m' & N & _ & Ep & Es).
  destruct (energy_bounds_distance state focusedIndex i c') as [Bp Bs].
  exists c'. split; [exact N|]. split; [lra|]. split; [lra|].
  split; [apply decay_range; exact Hall|].
  intros d0 Hd0 Hge. apply decay_geometric; [lra | exact Hge].
Qed.

Lemma frames_converge_witness :
  let card :=
    mkCardData (1, 2, 3) (4, 5, 6) (mkVector3 1 2 3) (mkVector3 0 0 0)
      0.4 0 None "a.jpg" 1 in
  let mesh := mkMeshGroup (mkVector3 1 2 3) (mkVector3 0.4 0.4 1)
                (mkVector3 0 0 10) in
  let deltas := [0.016; 0.5; 0.016] in
  exists card' : CardData,
    nth_error
      (fst (runFrames galaxy (Some 0%Z) (mkVector3 0 0 10) deltas
              ([card], [Some mesh]))) 0
      = Some card' /\
    9 * distance2 galaxy (Some 0%Z) 0 card'
      <= decay deltas * positionEnergy galaxy (Some 0%Z) 0 card /\
    5 * ((scale card' - targetScale (Some 0%Z) 0)
         * (scale card' - targetScale (Some 0%Z) 0))
      <= decay deltas * scaleEnergy (Some 0%Z) 0 card /\
    0 <= decay deltas <= 1 /\
    (forall d0 : R,
       0 <= d0 <= 0.033 ->
       Forall (fun delta => d0 <= delta) deltas ->
       decay deltas <= (1 - 4 * d0) ^ List.length deltas).
Proof.
  apply (frames_converge galaxy (Some 0%Z) (mkVector3 0 0 10)
           [0.016; 0.5; 0.016]
           [mkCardData (1, 2, 3) (4, 5, 6) (mkVector3 1 2 3) (mkVector3 0 0 0)
              0.4 0 None "a.jpg" 1]
           [Some (mkMeshGroup (mkVector3 1 2 3) (mkVector3 0.4 0.4 1)
                    (mkVector3 0 0 10))]
           0
           (mkCardData (1, 2, 3) (4, 5, 6) (mkVector3 1 2 3) (mkVector3 0 0 0)
              0.4 0 None "a.jpg" 1)
           (mkMeshGroup (mkVector3 1 2 3) (mkVector3 0.4 0.4 1)
              (mkVector3 0 0 10))).
  - repeat constructor; lra.
  - reflexivity.
  - reflexivity.
Defined.

(** ** Late completions and zero values *)

(** X19.  After a render, the completion of a load for an index at or
    beyond the number of cards (a card the list no longer has, or any
    index from twelve on) changes nothing in the store. *)
Theorem completion_after_shrink (rng : nat -> R) (old : list CardData)
    (photos : option (list string)) (n : nat) (req : LoadRequest)
    (comp : Completion) :
  (Nat.min (List.length (photoUrls photos)) 12 <= reqIndex req)%nat ->
  complete req comp (fst (fst (render rng old photos n)))
  = fst (fst (render rng old photos n)).
Proof.
  intros Hi. apply complete_miss. apply nth_error_None.
  rewrite render_length. exact Hi.
Qed.

Lemma completion_after_shrink_witness :
  let a :=
    mkCardData (1, 2, 3) (4, 0, 0) (mkVector3 1 2 3) (mkVector3 0 0 0)
      0.4 0 None "a.jpg" 1 in
  let b :=
    mkCardData (3, 2, 1) (0, 0, 4) (mkVector3 0 0 0.8) (mkVector3 0 0 0)
      5 0 None "b.jpg" 2 in
  let r := render (fun _ => 1 / 2) [a; b] (Some ["a.jpg"%string]) 0%nat in
  complete (mkLoadRequest 1 "b.jpg") Failed (fst (fst r)) = fst (fst r).
Proof.
  apply (completion_after_shrink (fun _ => 1 / 2)
           [mkCardData (1, 2, 3) (4, 0, 0) (mkVector3 1 2 3) (mkVector3 0 0 0)
              0.4 0 None "a.jpg" 1;
            mkCardData (3, 2, 1) (0, 0, 4) (mkVector3 0 0 0.8)
              (mkVector3 0 0 0) 5 0 None "b.jpg" 2]
           (Some ["a.jpg"%string]) 0%nat (mkLoadRequest 1 "b.jpg") Failed).
  cbn. lia.
Defined.

Section PhaseDraws.

Variable rng : nat -> R.
Variable old : list CardData.

(** The callback of the effect makes one draw or none, by the card the
    store has at its index alone. *)
Lemma reconcileCard_counter (photo : Photo) (i m : nat) :
  snd (reconcileCard rng old photo i m)
  = (needsPhase (nth_error old i) + m)%nat.
Proof.
  unfold reconcileCard, bind, ret, initialTime, random, needsPhase.
  destruct (nth_error old i) as [e|]; [|reflexivity].
  destruct (Req_dec_T (time e) 0); reflexivity.
Qed.

Lemma phaseDraws_succ (i k : nat) :
  phaseDraws old i (S k)
  = (phaseDraws old i k + needsPhase (nth_error old (i + k)))%nat.
Proof.
  revert i. induction k as [|k IH]; intros i.
  - cbn [phaseDraws]. rewrite (Nat.add_0_r i). lia.
  - change (phaseDraws old i (S (S k)))
      with (needsPhase (nth_error old i) + phaseDraws old (S i) (S k))%nat.
    rewrite IH. cbn [phaseDraws].
    replace (S i + k)%nat with (i + S k)%nat by lia. lia.
Qed.

(** The state of the random source at each card of the effect. *)
Lemma reconcile_results_nth (pd : list Photo) (i n k : nat) :
  nth_error (fst (mapiM (reconcileCard rng old) i pd n)) k =
  option_map
    (fun photo =>
       fst (reconcileCard rng old photo (i + k)%nat
              (n + phaseDraws old i k)%nat))
    (nth_error pd k).
Proof.
  revert i n k. induction pd as [|photo pd IH]; intros i n k.
  - destruct k; reflexivity.
  - rewrite mapiM_cons. cbn [fst].
    destruct k as [|k]; cbn [nth_error option_map].
    + cbn [phaseDraws]. rewrite !Nat.add_0_r. reflexivity.
    + rewrite IH, reconcileCard_counter. cbn [phaseDraws].
      replace (S i + k)%nat with (i + S k)%nat by lia.
      replace (needsPhase (nth_error old i) + n + phaseDraws old (S i) k)%nat
        with (n + (needsPhase (nth_error old i) + phaseDraws old (S i) k))%nat
        by lia.
      reflexivity.
Qed.

Lemma reconcile_results_counter (pd : list Photo) (i n : nat) :
  snd (mapiM (reconcileCard rng old) i pd n)
  = (n + phaseDraws old i (List.length pd))%nat.
Proof.
  revert i n. induction pd as [|photo pd IH]; intros i n.
  - cbn. lia.
  - rewrite mapiM_cons. cbn [snd List.length phaseDraws].
    rewrite IH, reconcileCard_counter. lia.
Qed.

End PhaseDraws.

(** X20.  Reconciliation takes a scale or a phase of exactly zero on an
    existing card for a missing one.  A scale of 0 is replaced by the
    initial scale 0.4 (a non-zero scale is kept), and a scale velocity of 0
    stays 0.  A phase of 0 is replaced by the next draw of the random
    source times [2 * PI]: the draw numbered [n] plus the draws made for
    the cards before index [i], and that draw is used up, so the next card
    that needs a phase gets the one after it; a non-zero phase is kept and
    uses no draw.  The effect as a whole makes as many draws as there are
    cards with a missing or zero phase. *)
Theorem zero_phase_takes_the_next_draw (rng : nat -> R)
    (old : list CardData) (pd : list Photo) (n i : nat) (photo : Photo)
    (e : CardData) :
  nth_error pd i = Some photo ->
  nth_error old i = Some e ->
  let m := (n + phaseDraws old 0 i)%nat in
  exists card : CardData,
    nth_error (fst (fst (reconcile rng old pd n))) i = Some card /\
    (scale e = 0 -> scale card = 0.4) /\
    (scale e <> 0 -> scale card = scale e) /\
    scaleVelocity card = scaleVelocity e /\
    (time e = 0 ->
     time card = rng m * PI * 2 /\
     phaseDraws old 0 (S i) = S (phaseDraws old 0 i)) /\
    (time e <> 0 ->
     time card = time e /\
     phaseDraws old 0 (S i) = phaseDraws old 0 i) /\
    snd (reconcile rng old pd n)
    = (n + phaseDraws old 0 (List.length pd))%nat.
Proof.
  intros Hp He. cbv zeta.
  rewrite reconcile_eq. cbn [fst snd].
  rewrite nth_error_map, reconcile_results_nth, Hp. cbn [option_map Nat.add].
  set (m := (n + phaseDraws old 0 i)%nat).
  eexists. split; [reflexivity|].
  pose proof (reconcileCard_fields rng old photo i m)
    as (_ & _ & _ & _ & S & W & _).
  rewrite He in S, W. cbn [Js.opt_or_num] in S, W.
  pose proof (phaseDraws_succ old 0 i) as Hs. cbn [Nat.add] in Hs.
  rewrite He in Hs. unfold needsPhase in Hs.
  split; [|split; [|split; [|split; [|split]]]].
  - intros Hz. rewrite S, Hz, or_num_falsy. reflexivity.
  - intros Hz. rewrite S. apply or_num_truthy. exact Hz.
  - rewrite W. apply or_num_zero.
  - intros Hz. split.
    + unfold reconcileCard, bind, ret, initialTime, random. rewrite He.
      destruct (Req_dec_T (time e) 0) as [_|N]; [reflexivity | contradiction].
    + destruct (Req_dec_T (time e) 0) as [_|N]; [lia | contradiction].
  - intros Hz. split.
    + apply reconcileCard_time_kept; assumption.
    + destruct (Req_dec_T (time e) 0) as [E|_]; [contradiction | lia].
  - apply reconcile_results_counter.
Qed.

Lemma zero_phase_takes_the_next_draw_witness :
  let rng := fun k : nat => INR k / 10 in
  let a :=
    mkCardData (1, 2, 3) (4, 0, 0) (mkVector3 1 2 3) (mkVector3 0 0 0)
      0.4 0 None "a.jpg" 0 in
  let e :=
    mkCardData (3, 2, 1) (0, 0, 4) (mkVector3 3 2 1) (mkVector3 0 0 0)
      0 0 None "b.jpg" 0 in
  let pa := mkPhoto "a.jpg" (1, 2, 3) (0, 0, 4) in
  let pb := mkPhoto "b.jpg" (3, 2, 1) (4, 0, 0) in
  let m := (6 + phaseDraws [a; e] 0 1)%nat in
  exists card : CardData,
    nth_error (fst (fst (reconcile rng [a; e] [pa; pb] 6%nat))) 1
      = Some card /\
    (scale e = 0 -> scale card = 0.4) /\
    (scale e <> 0 -> scale card = scale e) /\
    scaleVelocity card = scaleVelocity e /\
    (time e = 0 ->
     time card = rng m * PI * 2 /\
     phaseDraws [a; e] 0 2 = S (phaseDraws [a; e] 0 1)) /\
    (time e <> 0 ->
     time card = time e /\
     phaseDraws [a; e] 0 2 = phaseDraws [a; e] 0 1) /\
    snd (reconcile rng [a; e] [pa; pb] 6%nat)
    = (6 + phaseDraws [a; e] 0 (List.length [pa; pb]))%nat.
Proof.
  apply (zero_phase_takes_the_next_draw (fun k : nat => INR k / 10)
           [mkCardData (1, 2, 3) (4, 0, 0) (mkVector3 1 2 3) (mkVector3 0 0 0)
              0.4 0 None "a.jpg" 0;
            mkCardData (3, 2, 1) (0, 0, 4) (mkVector3 3 2 1) (mkVector3 0 0 0)
              0 0 None "b.jpg" 0]
           [mkPhoto "a.jpg" (1, 2, 3) (0, 0, 4);
            mkPhoto "b.jpg" (3, 2, 1) (4, 0, 0)]
           6 1
           (mkPhoto "b.jpg" (3, 2, 1) (4, 0, 0))
           (mkCardData (3, 2, 1) (0, 0, 4) (mkVector3 3 2 1) (mkVector3 0 0 0)
              0 0 None "b.jpg" 0)); reflexivity.
Defined.

(** ** The targets a frame steers to *)

(** C6.  In a frame, the spring step of the card at index [i] (a card that
    has a mesh group, so that the loop does not skip it) steers to these
    targets.  When [i] is the focus index: the fixed point (0, 0, 0.8) and
    the focused scale 5.  Otherwise: the tree position of the card when
    the mode is "tree" and its galaxy position in the other mode, and the
    ambient scale 0.4.  The card the frame leaves at [i] is the result of
    the spring scheme towards exactly these values, on each axis of the
    position and for the scale; the focused scale is the larger one. *)
Theorem frame_target_selection (state : TreeState)
    (focusedIndex : option Z) (camera : Vector3) (delta : R)
    (cards : list CardData) (meshRefs : list (option MeshGroup)) (i : nat)
    (card : CardData) (mesh : MeshGroup) :
  nth_error cards i = Some card ->
  nth_error meshRefs i = Some (Some mesh) ->
  exists card' : CardData,
    nth_error
      (fst (useFrame state focusedIndex camera delta cards meshRefs)) i
      = Some card' /\
    let dt := Rmin delta 0.033 in
    let towards (target : Vector3) (targetScale : R) :=
      (x (position card'), x (velocity card')) =
        specSpring 25 8 dt (x (position card)) (x (velocity card))
          (x target) /\
      (y (position card'), y (velocity card')) =
        specSpring 25 8 dt (y (position card)) (y (velocity card))
          (y target) /\
      (z (position card'), z (velocity card')) =
        specSpring 25 8 dt (z (position card)) (z (velocity card))
          (z target) /\
      (scale card', scaleVelocity card') =
        specSpring 30 10 dt (scale card) (scaleVelocity card) targetScale in
    (focusedIndex = Some (Z.of_nat i) -> towards (mkVector3 0 0 0.8) 5) /\
    (focusedIndex <> Some (Z.of_nat i) ->
     towards
       (Vec.ofTriple
          match state with
          | tree => treePosition card
          | galaxy => galaxyPosition card
          end)
       0.4) /\
    0.4 < 5.
Proof.
  intros Hc Hm.
  exists (stepCard state focusedIndex (Rmin delta maxDt) i card). split.
  - rewrite useFrame_cards_nth, Hc, Hm. reflexivity.
  - cbv zeta. fold maxDt.
    pose proof (stepCard_specSpring state focusedIndex (Rmin delta maxDt)
                  i card) as H.
    cbv zeta in H.
    unfold SPRING_STIFFNESS, SPRING_DAMPING, SCALE_STIFFNESS, SCALE_DAMPING
      in H.
    destruct (target_selection state focusedIndex i card) as (Hf & Hn & _).
    split; [|split; [|lra]].
    + intros E. destruct (Hf E) as [Hp Hs].
      rewrite Hp, Hs in H. exact H.
    + intros E. destruct (Hn E) as [Hp Hs].
      rewrite Hp, Hs in H. destruct state; exact H.
Qed.

Lemma frame_target_selection_witness :
  let card :=
    mkCardData (1, 2, 3) (4, 5, 6) (mkVector3 1 2 3) (mkVector3 0 0 0)
      0.4 0 None "a.jpg" 1 in
  let mesh := mkMeshGroup (mkVector3 1 2 3) (mkVector3 0.4 0.4 1)
                (mkVector3 0 0 10) in
  exists card' : CardData,
    nth_error
      (fst (useFrame galaxy (Some 1%Z) (mkVector3 0 0 10) 1
              [card; card] [Some mesh; Some mesh])) 1
      = Some card' /\
    let dt := Rmin 1 0.033 in
    let towards (target : Vector3) (targetScale : R) :=
      (x (position card'), x (velocity card')) =
        specSpring 25 8 dt (x (position card)) (x (velocity card))
          (x target) /\
      (y (position card'), y (velocity card')) =
        specSpring 25 8 dt (y (position card)) (y (velocity card))
          (y target) /\
      (z (position card'), z (velocity card')) =
        specSpring 25 8 dt (z (position card)) (z (velocity card))
          (z target) /\
      (scale card', scaleVelocity card') =
        specSpring 30 10 dt (scale card) (scaleVelocity card) targetScale in
    (Some 1%Z = Some (Z.of_nat 1) -> towards (mkVector3 0 0 0.8) 5) /\
    (Some 1%Z <> Some (Z.of_nat 1) ->
     towards (Vec.ofTriple (galaxyPosition card)) 0.4) /\
    0.4 < 5.
Proof.
  apply (frame_target_selection galaxy (Some 1%Z) (mkVector3 0 0 10) 1
           [mkCardData (1, 2, 3) (4, 5, 6) (mkVector3 1 2 3) (mkVector3 0 0 0)
              0.4 0 None "a.jpg" 1;
            mkCardData (1, 2, 3) (4, 5, 6) (mkVector3 1 2 3) (mkVector3 0 0 0)
              0.4 0 None "a.jpg" 1]
           [Some (mkMeshGroup (mkVector3 1 2 3) (mkVector3 0.4 0.4 1)
                    (mkVector3 0 0 10));
            Some (mkMeshGroup (mkVector3 1 2 3) (mkVector3 0.4 0.4 1)
                    (mkVector3 0 0 10))]
           1
           (mkCardData (1, 2, 3) (4, 5, 6) (mkVector3 1 2 3) (mkVector3 0 0 0)
              0.4 0 None "a.jpg" 1)
           (mkMeshGroup (mkVector3 1 2 3) (mkVector3 0.4 0.4 1)
              (mkVector3 0 0 10))); reflexivity.
Defined.
